(** * Elysia: type-level schema composition and the websocket adapter

    A shallow embedding of the parts of the repository that the behavioural
    description of the request-lifecycle engine talks about:

    - the type-level programs of the [types] module ([GetPathParameter],
      [Reconcile], [MergeSchema], [MergeRouteSchema], the typed route of
      [LocalHook], [TraceEvent], [TraceHandler], [ErrorHandler]), embedded
      as functions over a small universe of TypeScript types; the module
      is present in two revisions, which agree on all of these but
      [LocalHook] and [MergeRouteSchema];
    - the websocket adapter of [ws/index.ts] (the [websocket] handler table
      and the [ElysiaWS] wrapper), embedded in a state-and-exception monad
      over the underlying server socket. *)

From Equations Require Import Equations.
From Equations.Prop Require Import Logic.
From stdpp Require Import gmap strings list fin_maps.
From Stdlib Require Import Ascii ZArith NArith DecimalString DecimalPos DecimalN.

Local Open Scope string_scope.
Local Open Scope list_scope.

(** ** Template-literal inference on path strings *)

Module Template.

Definition slash : ascii := "/"%char.
Definition colon : ascii := ":"%char.
Definition star : ascii := "*"%char.

(** [Path extends `${infer A}/${infer B}`]: [A] is the text before the
    first ['/'] and [B] everything after it; there is no match when the
    string has no ['/']. *)
Fixpoint infer_slash (Path : string) : option (string * string) :=
  match Path with
  | EmptyString => None
  | String c rest =>
      if Ascii.eqb c slash then Some (EmptyString, rest)
      else match infer_slash rest with
           | Some (A, B) => Some (String c A, B)
           | None => None
           end
  end.

(** [Part extends `:${infer name}`] (the source calls the inferred text
    [Parameter]). *)
Definition infer_colon (Part : string) : option string :=
  match Part with
  | String c name => if Ascii.eqb c colon then Some name else None
  | EmptyString => None
  end.

(** [Path extends `${string}/${':' | '*'}${string}`]: somewhere in the
    string a ['/'] is directly followed by [':'] or ['*']. *)
Fixpoint has_slash_token (Path : string) : bool :=
  match Path with
  | EmptyString => false
  | String c rest =>
      (Ascii.eqb c slash &&
         match rest with
         | String d _ => Ascii.eqb d colon || Ascii.eqb d star
         | EmptyString => false
         end)
      || has_slash_token rest
  end.

End Template.

(** ** Path parameters *)

Module PathParameter.
Import Template.

(** [IsPathParameter<Part>]: the union it denotes, as the list of its
    members ([never] is the empty list). *)
Definition IsPathParameter (Part : string) : list string :=
  match infer_colon Part with
  | Some name => [name]
  | None => if String.eqb Part "*" then ["*"] else []
  end.

(** [GetPathParameter<Path>]. *)
Equations? GetPathParameter (Path : string) : list string
  by wf (String.length Path) lt :=
  GetPathParameter Path with inspect (infer_slash Path) := {
    | exist _ (Some (A, B)) Hinfer => IsPathParameter A ++ GetPathParameter B
    | exist _ None _ => IsPathParameter Path
  }.
Proof.
  clear GetPathParameter. rename Hinfer into H. revert A B H.
  induction Path as [|c rest IH]; intros A B H; simpl in *; [discriminate|].
  destruct (Ascii.eqb c slash).
  - inversion H; subst. lia.
  - destruct (infer_slash rest) as [[A' B']|] eqn:E; [|discriminate].
    inversion H; subst. specialize (IH _ _ eq_refl). lia.
Qed.

End PathParameter.

(** ** A universe of TypeScript types

    The conditional types of the [types] module inspect their arguments with
    [extends]; the universe below has the types they can tell apart. An
    absent (optional, missing) property reads as [TUndefined]. *)

#[warnings="-register-all"]
Inductive Ty : Type :=
| TUndefined
| TNever
| TUnknown
| TAny
| TVoid
| TNull
| TString
| TNumber
| TBoolean
| TObject (fields : gmap string Ty)
| TUnion (l r : Ty)
| TIntersect (l r : Ty).

(** [undefined extends T] under strict null checks. *)
Fixpoint undefined_extends (T : Ty) : bool :=
  match T with
  | TUndefined | TUnknown | TAny | TVoid => true
  | TUnion l r => undefined_extends l || undefined_extends r
  | TIntersect l r => undefined_extends l && undefined_extends r
  | _ => false
  end.

(** [T extends Record<string, unknown>]. *)
Fixpoint extends_Record (T : Ty) : bool :=
  match T with
  | TObject _ | TAny | TNever => true
  | TUnion l r => extends_Record l && extends_Record r
  | TIntersect l r => extends_Record l || extends_Record r
  | _ => false
  end.

(** [Record<Keys, T>] for a union [Keys] of string literals. *)
Definition Record_ (Keys : list string) (T : Ty) : Ty :=
  TObject (gset_to_gmap T (list_to_set Keys)).

(** The type of a property in [S & { p: T }] when [S] gives it type [old]:
    a missing or [unknown] property takes the new type. *)
Definition meet (old T : Ty) : Ty :=
  match old with
  | TUndefined | TUnknown => T
  | _ => TIntersect old T
  end.

(** ** Route schemas *)

Record RouteSchema : Type := {
  body : Ty;
  headers : Ty;
  query : Ty;
  params : Ty;
  cookie : Ty;
  response : Ty
}.

Inductive SlotName : Type :=
| Sbody | Sheaders | Squery | Sparams | Scookie | Sresponse.

Definition slot (s : SlotName) (R : RouteSchema) : Ty :=
  match s with
  | Sbody => body R
  | Sheaders => headers R
  | Squery => query R
  | Sparams => params R
  | Scookie => cookie R
  | Sresponse => response R
  end.

(** The schema [{}]: every slot absent. *)
Definition no_schema : RouteSchema :=
  {| body := TUndefined; headers := TUndefined; query := TUndefined;
     params := TUndefined; cookie := TUndefined; response := TUndefined |}.

Definition with_params (R : RouteSchema) (T : Ty) : RouteSchema :=
  {| body := body R; headers := headers R; query := query R;
     params := T; cookie := cookie R; response := response R |}.

(** [MergeSchema<A, B>]. *)
Definition MergeSchema (A B : RouteSchema) : RouteSchema :=
  {| body := if undefined_extends (body A) then body B else body A;
     headers := if undefined_extends (headers A) then headers B else headers A;
     query := if undefined_extends (query A) then query B else query A;
     params := if undefined_extends (params A) then params B else params A;
     cookie := if undefined_extends (cookie A) then cookie B else cookie A;
     response :=
       if undefined_extends (response A) then response B else response A |}.

(** The params slot of [UnwrapGroupGuardRoute<Schema, Definitions, Path>],
    the same in both revisions, from the type [Unwrapped] that
    [UnwrapSchema] gives for [Schema['params']]; for an absent slot that
    type is [unknown]. *)
Definition UnwrapGroupGuardRoute_params (Unwrapped : Ty) (Path : string)
  : Ty :=
  if extends_Record Unwrapped then Unwrapped
  else if Template.has_slash_token Path
       then Record_ (PathParameter.GetPathParameter Path) TString
       else TNever.

(** Definitions that only the earlier revision of the [types] module has,
    or has in a different form. *)
Module Types0.
Import PathParameter Template.

(** [MergeRouteSchema<A, B, Path>]: [Omit<Schema, 'params'> & { params: _ }]
    replaces the params slot. *)
Definition MergeRouteSchema (A B : RouteSchema) (Path : string)
  : RouteSchema :=
  let Schema := MergeSchema A B in
  if extends_Record (params Schema) then Schema
  else with_params Schema
         (if has_slash_token Path
          then Record_ (GetPathParameter Path) TString
          else TNever).

(** The default of [LocalHook]'s [TypedRoute]. *)
Definition TypedRoute (Schema : RouteSchema) (Path : string) : RouteSchema :=
  if extends_Record (params Schema) then Schema
  else with_params Schema
         (meet (params Schema) (Record_ (GetPathParameter Path) TString)).

End Types0.

(** The later revision of the [types] module. *)
Module Types1.
Import PathParameter.

(** The default of [LocalHook]'s [TypedRoute]. When [undefined] does not
    extend the params slot the intersection adds [Schema['params']] to
    [Schema], which is [Schema] again. *)
Definition TypedRoute (Schema : RouteSchema) (Path : string) : RouteSchema :=
  if extends_Record (params Schema) then Schema
  else if undefined_extends (params Schema)
       then with_params Schema
              (meet (params Schema)
                 (Record_ (GetPathParameter Path) TString))
       else Schema.

End Types1.

(** ** Singleton namespaces *)

(** A property of an object type: whether it is optional ([name?: T]), and
    its type or value. *)
Record Property (V : Type) : Type := {
  optional : bool;
  content : V
}.

Arguments optional {V} _.
Arguments content {V} _.

Definition required {V : Type} (v : V) : Property V :=
  {| optional := false; content := v |}.

Section Reconcile.
Context {V : Type}.

(** [{} extends T] for an object type [T]: the empty object is assignable
    to [T] when [T] has no required property. *)
Definition empty_extends (T : gmap string (Property V)) : Prop :=
  map_Forall (λ _ p, optional p = true) T.

(** [Reconcile<A, B>]. The mapped type over [keyof A] that is bound to
    [Collision] keeps the properties of [A] whose key [B] lacks, with their
    modifiers; the mapped type over [keyof B] is [B]. *)
Definition Reconcile (A B : gmap string (Property V))
  : gmap string (Property V) :=
  let Collision := filter (λ kv, B !! kv.1 = None) A in
  if decide (empty_extends Collision) then B else Collision ∪ B.

End Reconcile.

(** ** Trace events *)

Module Trace.

(** The union that [TraceEvent] binds to [Events]. *)
Definition Events : list string :=
  ["request"; "parse"; "transform"; "beforeHandle"; "afterHandle";
   "error"; "response"].

(** [`${Events}.unit`] for one member. *)
Definition unit_of (e : string) : string := e +:+ ".unit".

(** [TraceEvent]. *)
Definition TraceEvent : list string :=
  Events ++ map unit_of Events ++ ["handle"; "exit"].











End Trace.

(** ** Error hooks *)

Module ErrorHook.

(** The error classes of the [error] module, and classes of the
    application's own, by name. *)
Inductive ErrorClass : Type :=
| Error
| ValidationError
| NotFoundError
| ParseError
| InternalServerError
| InvalidCookieSignature
| CustomError (class_name : string).

(** What an error hook receives, as far as [code] and [error] go. *)
Record ErrorContext : Type := {
  code : string;
  error : ErrorClass
}.

(** The six members of the union that [ErrorHandler] writes out. *)
Definition fixed_members : list ErrorContext :=
  [ {| code := "UNKNOWN"; error := Error |};
    {| code := "VALIDATION"; error := ValidationError |};
    {| code := "NOT_FOUND"; error := NotFoundError |};
    {| code := "PARSE"; error := ParseError |};
    {| code := "INTERNAL_SERVER_ERROR"; error := InternalServerError |};
    {| code := "INVALID_COOKIE_SIGNATURE"; error := InvalidCookieSignature |} ].

(** [{ [K in keyof T]: { code: K; error: T[K] } }[keyof T]]. *)
Definition custom_members (T : gmap string ErrorClass) : list ErrorContext :=
  (λ kv, {| code := kv.1; error := kv.2 |}) <$> map_to_list T.

(** The union of [code]/[error] pairs in the context of an
    [ErrorHandler<T, ...>]. *)
Definition ErrorHandler (T : gmap string ErrorClass) : list ErrorContext :=
  fixed_members ++ custom_members T.

Definition fixed_codes : list string := code <$> fixed_members.

(** The error class that the written-out members give to a code. *)
Definition fixed_shape (c : string) : option ErrorClass :=
  error <$> head (filter (λ m, code m = c) fixed_members).

End ErrorHook.

(** ** JavaScript values

    The values that the adapter tells apart with [typeof] and
    [Buffer.isBuffer]. The payload of a number plays no role here. *)

#[warnings="-register-all"]
Inductive JsValue : Type :=
| JUndefined
| JNull
| JBoolean (b : bool)
| JNumber (n : Z)
| JString (s : string)
| JBuffer (bytes : list N)
| JArray (items : list JsValue)
| JObject (props : list (string * JsValue)).

Definition typeof (v : JsValue) : string :=
  match v with
  | JUndefined => "undefined"
  | JBoolean _ => "boolean"
  | JNumber _ => "number"
  | JString _ => "string"
  | JNull | JBuffer _ | JArray _ | JObject _ => "object"
  end.

Definition Buffer_isBuffer (v : JsValue) : bool :=
  match v with
  | JBuffer _ => true
  | _ => false
  end.

(** Truthiness of a [string | undefined]. *)
Definition truthy (s : option string) : bool :=
  match s with
  | Some (String _ _) => true
  | Some EmptyString | None => false
  end.

(** [n.toString()] for an element of a [Uint32Array]: the decimal numeral,
    ["0"] for zero. *)
Definition Uint32_toString (n : N) : string :=
  NilZero.string_of_uint (N.to_uint n).

(** The platform's serializer. On every value of the universe above whose
    [typeof] is ["object"], [JSON.stringify] returns a string. *)
Class Platform : Type := {
  JSON_stringify : JsValue → string
}.

(** The compiled checker of the schema validator: only [Check] is used. *)
Record TypeCheck : Type := {
  Check : JsValue → bool
}.

(** ** The underlying server socket *)

Module Bun.

(** A function stored by the application, by name. *)
Definition Callback : Type := string.

(** [ws.data]. *)
Record Data : Type := {
  id : option string;
  validator : option TypeCheck;
  open : option Callback;
  message : option Callback;
  drain : option Callback;
  close : option Callback
}.

(** [ServerWebSocket]: the state that the calls below read or change. *)
Record ServerWebSocket : Type := {
  data : Data;
  topics : gset string;
  remoteAddress : string
}.

(** Calls of the socket's own methods. *)
Inductive RawCall : Type :=
| Publish (topic : string) (payload : JsValue) (compress : option bool)
| Send (payload : JsValue)
| SendBinary (payload : JsValue)
| SendText (payload : JsValue)
| Subscribe (room : string)
| Unsubscribe (room : string)
| Cork (callback : Callback)
| Close
| Terminate
| IsSubscribed (room : string).

(** An argument handed to a stored function. *)
Inductive Arg : Type :=
| ArgSocket
| ArgValue (v : JsValue)
| ArgNumber (n : Z)
| ArgString (s : string).

(** What the adapter does to its collaborators, in program order. *)
Inductive Event : Type :=
| ECheck (v : TypeCheck) (value : JsValue)
| ERaw (c : RawCall)
| EInvoke (f : Callback) (args : list Arg).

Record World : Type := {
  raw : ServerWebSocket;
  trace : list Event;
  entropy : nat → N;
  drawn : nat
}.

Definition set_id (newID : option string) (d : Data) : Data :=
  {| id := newID; validator := validator d; open := open d;
     message := message d; drain := drain d; close := close d |}.

Definition set_data (d : Data) (ws : ServerWebSocket) : ServerWebSocket :=
  {| data := d; topics := topics ws; remoteAddress := remoteAddress ws |}.

Definition set_topics (t : gset string) (ws : ServerWebSocket)
  : ServerWebSocket :=
  {| data := data ws; topics := t; remoteAddress := remoteAddress ws |}.

Definition set_raw (ws : ServerWebSocket) (w : World) : World :=
  {| raw := ws; trace := trace w; entropy := entropy w; drawn := drawn w |}.

Definition emit (e : Event) (w : World) : World :=
  {| raw := raw w; trace := trace w ++ [e]; entropy := entropy w;
     drawn := drawn w |}.

(** The value that a call writes to the socket or its topic, if any. *)
Definition payload (c : RawCall) : option JsValue :=
  match c with
  | Publish _ p _ | Send p | SendBinary p | SendText p => Some p
  | _ => None
  end.

(** The calls of the socket's methods among the events. *)
Definition raw_calls (t : list Event) : list RawCall :=
  omap (λ e, match e with ERaw c => Some c | _ => None end) t.

End Bun.

(** ** The websocket adapter *)

Module WS.

(** Modelled from the spec: the [error] module, which declares the class
    [ValidationError], is missing. The error is built from the name of the
    failing field, the checker and the offending value, and is the one that
    the error taxonomy files under the code [VALIDATION]. *)
Inductive Thrown : Type :=
| ValidationError (type : string) (validator : TypeCheck) (value : JsValue).

Definition code_of (e : Thrown) : string :=
  match e with
  | ValidationError _ _ _ => "VALIDATION"
  end.

Inductive Outcome (A : Type) : Type :=
| Returns (a : A)
| Throws (e : Thrown).

Arguments Returns {A} a.
Arguments Throws {A} e.

(** Computations over the world that may throw. *)
Definition M (A : Type) : Type := Bun.World → Outcome A * Bun.World.

#[export] Instance M_ret : MRet M := λ A a w, (Returns a, w).

#[export] Instance M_bind : MBind M := λ A B k m w,
  match m w with
  | (Returns a, w') => k a w'
  | (Throws e, w') => (Throws e, w')
  end.

Definition throw {A : Type} (e : Thrown) : M A := λ w, (Throws e, w).

Definition read {A : Type} (f : Bun.World → A) : M A := λ w, (Returns (f w), w).

Definition update (f : Bun.World → Bun.World) : M () := λ w, (Returns (), f w).

(** A call of one of the socket's methods. *)
Definition call (c : Bun.RawCall) : M () := update (Bun.emit (Bun.ERaw c)).

(** The functions that the application stored in [ws.data], by name: what
    each of them does when it is called with given arguments. A function
    runs to its end before its caller goes on; it may use the socket and the
    wrapper, change [ws.data], and return or throw. *)
Class Application : Type := {
  behaviour : Bun.Callback → list Bun.Arg → M ()
}.

(** A call of a function stored by the application: the call is recorded
    and the function runs. *)
Definition invoke `{Application} (f : Bun.Callback) (args : list Bun.Arg)
  : M () :=
  update (Bun.emit (Bun.EInvoke f args));; behaviour f args.

(** [v.Check(value)]. *)
Definition call_Check (v : TypeCheck) (value : JsValue) : M bool :=
  update (Bun.emit (Bun.ECheck v value));; mret (Check v value).

(** [crypto.getRandomValues] on a [Uint32Array] of length one; the result
    is the element. *)
Definition getRandomValues : M N := λ w,
  (Returns (Bun.entropy w (Bun.drawn w) mod 2 ^ 32)%N,
   {| Bun.raw := Bun.raw w; Bun.trace := Bun.trace w;
      Bun.entropy := Bun.entropy w; Bun.drawn := S (Bun.drawn w) |}).

(** The four lifecycle events of the handler table. *)
Inductive Lifecycle : Type :=
| OnOpen
| OnMessage (message : JsValue)
| OnDrain
| OnClose (code : Z) (reason : string).

Section Table.
Context `{Application}.

(** [f?.(args)] for a stored function. *)
Definition optional_call (f : option Bun.Callback) (args : list Bun.Arg)
  : M () :=
  match f with
  | Some g => invoke g args
  | None => mret ()
  end.

(** *** The [websocket] handler table *)

Definition websocket_open : M () :=
  f ← read (λ w, Bun.open (Bun.data (Bun.raw w)));
  optional_call f [Bun.ArgSocket].

Definition websocket_message (message : JsValue) : M () :=
  f ← read (λ w, Bun.message (Bun.data (Bun.raw w)));
  optional_call f [Bun.ArgSocket; Bun.ArgValue message].

Definition websocket_drain : M () :=
  f ← read (λ w, Bun.drain (Bun.data (Bun.raw w)));
  optional_call f [Bun.ArgSocket].

Definition websocket_close (code : Z) (reason : string) : M () :=
  f ← read (λ w, Bun.close (Bun.data (Bun.raw w)));
  optional_call f [Bun.ArgSocket; Bun.ArgNumber code; Bun.ArgString reason].

Definition websocket (ev : Lifecycle) : M () :=
  match ev with
  | OnOpen => websocket_open
  | OnMessage message => websocket_message message
  | OnDrain => websocket_drain
  | OnClose code reason => websocket_close code reason
  end.

End Table.

(** The world in which a stored function is entered: the call has been
    recorded, nothing else has happened. *)
Definition entered (f : Bun.Callback) (args : list Bun.Arg)
    (w w1 : Bun.World) : Prop :=
  Bun.raw w1 = Bun.raw w
  ∧ Bun.trace w1 = Bun.trace w ++ [Bun.EInvoke f args]
  ∧ Bun.entropy w1 = Bun.entropy w
  ∧ Bun.drawn w1 = Bun.drawn w.

(** *** The [ElysiaWS] class

    [raw] is the socket of the world; the wrapper's own fields are its
    context and the checker it copied at construction. *)

Record ElysiaWS (Context : Type) : Type := {
  data : Context;
  validator : option TypeCheck
}.

Arguments data {Context} _.
Arguments validator {Context} _.

Section Class.
Context {Context : Type} `{Platform}.

Abbreviation this_t := (ElysiaWS Context).

(** [get id()]. *)
Definition get_id (this : this_t) : M (option string) :=
  read (λ w, Bun.id (Bun.data (Bun.raw w))).

(** [set id(newID)]. *)
Definition set_id (this : this_t) (newID : string) : M () :=
  update (λ w,
    Bun.set_raw
      (Bun.set_data (Bun.set_id (Some newID) (Bun.data (Bun.raw w)))
         (Bun.raw w)) w).

Definition constructor (data : Context) : M this_t :=
  v ← read (λ w, Bun.validator (Bun.data (Bun.raw w)));
  let this := {| data := data; validator := v |} in
  i ← read (λ w, Bun.id (Bun.data (Bun.raw w)));
  if truthy i then
    set_id this (default "" i);; mret this
  else
    n ← getRandomValues;
    set_id this (Uint32_toString n);; mret this.

(** [if (this.validator?.Check(data) === false) throw ...]. *)
Definition validate (this : this_t) (data : JsValue) : M () :=
  match validator this with
  | None => mret ()
  | Some v =>
      ok ← call_Check v data;
      if (ok : bool) then mret ()
      else throw (ValidationError "message" v data)
  end.

(** [if (typeof data === 'object') data = JSON.stringify(data)]. *)
Definition stringify_object (data : JsValue) : JsValue :=
  if String.eqb (typeof data) "object" then JString (JSON_stringify data)
  else data.

Definition publish (this : this_t) (topic : string) (data : JsValue)
    (compress : option bool) : M this_t :=
  validate this data;;
  call (Bun.Publish topic (stringify_object data) compress);;
  mret this.

Definition send (this : this_t) (data : JsValue) : M this_t :=
  validate this data;;
  if Buffer_isBuffer data then
    call (Bun.Send data);; mret this
  else
    call (Bun.Send (stringify_object data));; mret this.

Definition sendBinary (this : this_t) (data : JsValue) : M this_t :=
  validate this data;;
  call (Bun.SendBinary data);;
  mret this.

Definition sendText (this : this_t) (data : JsValue) : M this_t :=
  validate this data;;
  call (Bun.SendText data);;
  mret this.

Definition subscribe (this : this_t) (room : string) : M this_t :=
  call (Bun.Subscribe room);;
  update (λ w, Bun.set_raw
                 (Bun.set_topics ({[room]} ∪ Bun.topics (Bun.raw w))
                    (Bun.raw w)) w);;
  mret this.

Definition unsubscribe (this : this_t) (room : string) : M this_t :=
  call (Bun.Unsubscribe room);;
  update (λ w, Bun.set_raw
                 (Bun.set_topics (Bun.topics (Bun.raw w) ∖ {[room]})
                    (Bun.raw w)) w);;
  mret this.

(** The socket runs the callback; what the callback does is its own. *)
Definition cork (this : this_t) (callback : Bun.Callback) : M this_t :=
  call (Bun.Cork callback);;
  mret this.

Definition close (this : this_t) : M this_t :=
  call Bun.Close;;
  mret this.

(** [terminate] and [isSubscribed] are the socket's methods, bound to it. *)
Definition terminate (this : this_t) : M () :=
  call Bun.Terminate.

Definition isSubscribed (this : this_t) (room : string) : M bool :=
  call (Bun.IsSubscribed room);;
  read (λ w, bool_decide (room ∈ Bun.topics (Bun.raw w))).

Definition remoteAddress (this : this_t) : M string :=
  read (λ w, Bun.remoteAddress (Bun.raw w)).

(** The outbound operations, as one family. *)
Inductive Outbound : Type :=
| DoPublish (topic : string) (data : JsValue) (compress : option bool)
| DoSend (data : JsValue)
| DoSendBinary (data : JsValue)
| DoSendText (data : JsValue).

Definition outgoing (op : Outbound) : JsValue :=
  match op with
  | DoPublish _ data _ | DoSend data | DoSendBinary data | DoSendText data =>
      data
  end.

Definition outbound (this : this_t) (op : Outbound) : M this_t :=
  match op with
  | DoPublish topic data compress => publish this topic data compress
  | DoSend data => send this data
  | DoSendBinary data => sendBinary this data
  | DoSendText data => sendText this data
  end.

(** Every operation of the class but the [id] setter, results dropped. *)
Inductive Operation : Type :=
| OpOutbound (op : Outbound)
| OpSubscribe (room : string)
| OpUnsubscribe (room : string)
| OpCork (callback : Bun.Callback)
| OpClose
| OpTerminate
| OpIsSubscribed (room : string)
| OpRemoteAddress
| OpGetId.

Definition operation (this : this_t) (op : Operation) : M () :=
  match op with
  | OpOutbound o => outbound this o;; mret ()
  | OpSubscribe room => subscribe this room;; mret ()
  | OpUnsubscribe room => unsubscribe this room;; mret ()
  | OpCork callback => cork this callback;; mret ()
  | OpClose => close this;; mret ()
  | OpTerminate => terminate this
  | OpIsSubscribed room => isSubscribed this room;; mret ()
  | OpRemoteAddress => remoteAddress this;; mret ()
  | OpGetId => get_id this;; mret ()
  end.

End Class.

End WS.

(** ** The description's reading of path parameters

    The behavioural description obtains the parameter names of a path by
    splitting it on ['/'] and keeping the segments [:name] (as [name]) and
    [*]. The definitions below follow these words; they are compared with
    [GetPathParameter] further down. *)

Module PathTokens.

Fixpoint split_slash (p : string) : list string :=
  match p with
  | EmptyString => [EmptyString]
  | String c rest =>
      if Ascii.eqb c Template.slash then EmptyString :: split_slash rest
      else match split_slash rest with
           | segment :: segments => String c segment :: segments
           | [] => [String c EmptyString]
           end
  end.

Definition token (segment : string) : option string :=
  match segment with
  | String c name =>
      if Ascii.eqb c Template.colon then Some name
      else if String.eqb segment "*" then Some "*"
      else None
  | EmptyString => None
  end.

Definition path_tokens (p : string) : list string :=
  omap token (split_slash p).

Definition starts_with_slash (p : string) : bool :=
  match p with
  | String c _ => Ascii.eqb c Template.slash
  | EmptyString => false
  end.

End PathTokens.

(** The property names of an object type; other types have none. *)
Definition fields_of (T : Ty) : gmap string Ty :=
  match T with
  | TObject fields => fields
  | _ => ∅
  end.

(** A slot is defined when it is not absent. *)
Definition slot_defined (T : Ty) : bool :=
  match T with
  | TUndefined => false
  | _ => true
  end.

(** ** Sample connections *)

Definition strings_only : TypeCheck :=
  {| Check := λ v, match v with JString _ => true | _ => false end |}.

Definition sample_data (i : option string) (v : option TypeCheck) : Bun.Data :=
  {| Bun.id := i; Bun.validator := v; Bun.open := None;
     Bun.message := Some "onMessage"; Bun.drain := None; Bun.close := None |}.

Definition sample_world (i : option string) (v : option TypeCheck)
  : Bun.World :=
  {| Bun.raw := {| Bun.data := sample_data i v; Bun.topics := ∅;
                   Bun.remoteAddress := "::1" |};
     Bun.trace := []; Bun.entropy := λ _, 4294967303%N; Bun.drawn := 0 |}.

(** Two routes that differ in the response slot only. *)
Definition optional_text_response : RouteSchema :=
  {| body := TUndefined; headers := TUndefined; query := TUndefined;
     params := TUndefined; cookie := TUndefined;
     response := TUnion TString TUndefined |}.

Definition number_response : RouteSchema :=
  {| body := TUndefined; headers := TUndefined; query := TUndefined;
     params := TUndefined; cookie := TUndefined; response := TNumber |}.

(** Two namespaces: [{ a?: string }] and [{ b: number }]. *)
Definition optional_a : gmap string (Property Ty) :=
  {["a" := {| optional := true; content := TString |}]}.

Definition required_b : gmap string (Property Ty) :=
  {["b" := required TNumber]}.

(** A stand-in serializer for the samples: right on the values listed,
    and some fixed text on the others. *)
Definition sample_stringify (v : JsValue) : string :=
  match v with
  | JNull => "null"
  | JBoolean true => "true"
  | JBoolean false => "false"
  | JArray [] => "[]"
  | _ => "{}"
  end.

Definition sample_platform : Platform :=
  {| JSON_stringify := sample_stringify |}.

Definition any_value : TypeCheck := {| Check := λ _, true |}.

Section SampleApplications.
Import WS.

(** An application whose [onMessage] sends back the message it got,
    through a wrapper of its own; its other functions do nothing. *)
Definition echo_application : Application :=
  {| behaviour := λ f args,
       match args with
       | [Bun.ArgSocket; Bun.ArgValue message] =>
           if String.eqb f "onMessage" then
             this ← constructor ();
             @send () sample_platform this message;; mret ()
           else mret ()
       | _ => mret ()
       end |}.

(** An application each of whose functions sends its own name. *)
Definition naming_application : Application :=
  {| behaviour := λ f args, call (Bun.Send (JString f)) |}.

End SampleApplications.

(** ** Using the adapter

    Every operation that writes returns the wrapper, so callers chain them
    ([ws.send(a).send(b)]); the server calls the handler table once per
    event. *)

Module Fluent.
Import WS.

Section Fluent.
Context {Context : Type} `{Platform}.

(** [ws.op1(..).op2(..)...]. *)
Fixpoint chain (this : WS.ElysiaWS Context) (ops : list WS.Outbound)
  : WS.M (WS.ElysiaWS Context) :=
  match ops with
  | [] => mret this
  | op :: rest => next ← WS.outbound this op; chain next rest
  end.

(** Whether the wrapper's guard lets the data of an operation through. *)
Definition accepts (this : WS.ElysiaWS Context) (op : WS.Outbound) : bool :=
  match WS.validator this with
  | Some v => Check v (WS.outgoing op)
  | None => true
  end.

(** The call of the socket that an operation ends with. *)
Definition written (op : WS.Outbound) : Bun.RawCall :=
  match op with
  | WS.DoPublish topic data compress =>
      Bun.Publish topic (WS.stringify_object data) compress
  | WS.DoSend data =>
      Bun.Send (if Buffer_isBuffer data then data
                else WS.stringify_object data)
  | WS.DoSendBinary data => Bun.SendBinary data
  | WS.DoSendText data => Bun.SendText data
  end.

(** Whether an operation replaces its data by the JSON text. *)
Definition serializes (op : WS.Outbound) : bool :=
  match op with
  | WS.DoPublish _ data _ => String.eqb (typeof data) "object"
  | WS.DoSend data =>
      negb (Buffer_isBuffer data) && String.eqb (typeof data) "object"
  | WS.DoSendBinary _ | WS.DoSendText _ => false
  end.

End Fluent.

(** The longest prefix of operations that the guard lets through, and the
    first one it stops, if any. *)
Fixpoint accepted {A : Type} (ok : A → bool) (l : list A) : list A :=
  match l with
  | [] => []
  | x :: rest => if ok x then x :: accepted ok rest else []
  end.

Fixpoint rejected {A : Type} (ok : A → bool) (l : list A) : option A :=
  match l with
  | [] => None
  | x :: rest => if ok x then rejected ok rest else Some x
  end.

(** The events of a connection, handed to the table one after the other,
    as long as no stored function throws. *)
Fixpoint deliver `{Application} (events : list WS.Lifecycle) : WS.M () :=
  match events with
  | [] => mret ()
  | ev :: rest => WS.websocket ev;; deliver rest
  end.

(** The function stored for an event and the arguments it is called with. *)
Definition stored (d : Bun.Data) (ev : WS.Lifecycle) : option Bun.Callback :=
  match ev with
  | WS.OnOpen => Bun.open d
  | WS.OnMessage _ => Bun.message d
  | WS.OnDrain => Bun.drain d
  | WS.OnClose _ _ => Bun.close d
  end.

Definition arguments (ev : WS.Lifecycle) : list Bun.Arg :=
  match ev with
  | WS.OnOpen | WS.OnDrain => [Bun.ArgSocket]
  | WS.OnMessage message => [Bun.ArgSocket; Bun.ArgValue message]
  | WS.OnClose code reason =>
      [Bun.ArgSocket; Bun.ArgNumber code; Bun.ArgString reason]
  end.

Definition invocation (d : Bun.Data) (ev : WS.Lifecycle)
  : option (Bun.Callback * list Bun.Arg) :=
  (λ f, (f, arguments ev)) <$> stored d ev.

(** The calls of stored functions among the events. *)
Definition invoked (t : list Bun.Event)
  : list (Bun.Callback * list Bun.Arg) :=
  omap (λ e, match e with
             | Bun.EInvoke f args => Some (f, args)
             | _ => None
             end) t.

(** A world with further events on its trace and nothing else changed. *)
Definition extend (events : list Bun.Event) (w : Bun.World) : Bun.World :=
  {| Bun.raw := Bun.raw w; Bun.trace := Bun.trace w ++ events;
     Bun.entropy := Bun.entropy w; Bun.drawn := Bun.drawn w |}.

End Fluent.

(** ** Remapping the keys of an object type *)

(** The keys of an object type: string literals, numeric literals and
    symbols ([keyof T] is a union of such). *)
Inductive Key : Type :=
| StringKey (s : string)
| NumberKey (n : N)
| SymbolKey (description : string).

#[export] Instance Key_eq_dec : EqDecision Key.
Proof. solve_decision. Defined.

#[export] Instance Key_countable : Countable Key.
Proof.
  apply (inj_countable'
           (λ K, match K with
                 | StringKey s => inl s
                 | NumberKey n => inr (inl n)
                 | SymbolKey d => inr (inr d)
                 end)
           (λ x, match x with
                 | inl s => StringKey s
                 | inr (inl n) => NumberKey n
                 | inr (inr d) => SymbolKey d
                 end)).
  by intros [].
Defined.

Section Remap.
Context {V : Type}.

(** The properties of [T] whose key [K] has a [K & string] other than
    [never], under that string. *)
Definition string_keyed (T : gmap Key V) : gmap string V :=
  map_fold (λ K v acc,
              match K with
              | StringKey s => <[s := v]> acc
              | NumberKey _ | SymbolKey _ => acc
              end) ∅ T.

(** [AddPrefix<Prefix, T>]: the key [K] becomes [`${Prefix}${K & string}`];
    a key that becomes [never] is left out. *)
Definition AddPrefix (Prefix : string) (T : gmap Key V) : gmap Key V :=
  kmap (λ K, StringKey (Prefix +:+ K)) (string_keyed T).

(** [AddSuffix<Suffix, T>]: the key [K] becomes [`${K & string}${Suffix}`]. *)
Definition AddSuffix (Suffix : string) (T : gmap Key V) : gmap Key V :=
  kmap (λ K, StringKey (K +:+ Suffix)) (string_keyed T).

End Remap.

(** ** The client tree of a path *)

Module Eden.
Import Template.

(** An object type with a single property, nested: [{ a: { b: P } }]. *)
Inductive Tree (P : Type) : Type :=
| Leaf (property : P)
| Key (x : string) (inner : Tree P).

Arguments Leaf {P} property.
Arguments Key {P} x inner.

Fixpoint keys {P : Type} (t : Tree P) : list string :=
  match t with
  | Leaf _ => []
  | Key x inner => x :: keys inner
  end.

Fixpoint leaf {P : Type} (t : Tree P) : P :=
  match t with
  | Leaf property => property
  | Key _ inner => leaf inner
  end.

Definition starts_slash (Path : string) : bool :=
  match Path with
  | String c _ => Ascii.eqb c slash
  | EmptyString => false
  end.

(** [Path extends `/${infer Rest}` ? Rest : Path]. *)
Definition strip_slash (Path : string) : string :=
  match Path with
  | String c Rest => if Ascii.eqb c slash then Rest else Path
  | EmptyString => Path
  end.

(** [_CreateEden<Path, Property>] of the later revision. *)
Equations? _CreateEden {P : Type} (Path : string) (property : P) : Tree P
  by wf (String.length Path) lt :=
  _CreateEden Path property with inspect (infer_slash Path) := {
    | exist _ (Some (Start, Rest)) Hinfer =>
        Key Start (_CreateEden Rest property)
    | exist _ None _ => Key Path (Leaf property)
  }.
Proof.
  clear _CreateEden. rename Hinfer into H. revert Start Rest H.
  induction Path as [|c rest IH]; intros Start Rest H; simpl in *;
    [discriminate|].
  destruct (Ascii.eqb c slash).
  - inversion H; subst. lia.
  - destruct (infer_slash rest) as [[A' B']|] eqn:E; [|discriminate].
    inversion H; subst. specialize (IH _ _ eq_refl). lia.
Qed.

(** [CreateEden<Path, Property>] of the later revision. *)
Definition CreateEden {P : Type} (Path : string) (property : P) : Tree P :=
  match Path with
  | String c Rest =>
      if Ascii.eqb c slash then _CreateEden Rest property
      else _CreateEden Path property
  | EmptyString => _CreateEden "index" property
  end.

(** [_CreateEden] of the earlier revision: it continues with [CreateEden]
    on the rest, which takes one more ['/'] off its front. *)
Equations? _CreateEden0 {P : Type} (Path : string) (property : P) : Tree P
  by wf (String.length Path) lt :=
  _CreateEden0 Path property with inspect (infer_slash Path) := {
    | exist _ (Some (Start, Rest)) Hinfer =>
        Key Start (_CreateEden0 (strip_slash Rest) property)
    | exist _ None _ => Key Path (Leaf property)
  }.
Proof.
  clear _CreateEden0. rename Hinfer into H.
  assert (String.length (strip_slash Rest) ≤ String.length Rest)%nat
    as Hstrip.
  { destruct Rest as [|c r]; simpl; [lia|].
    destruct (Ascii.eqb c slash); simpl; lia. }
  enough (String.length Rest < String.length Path) by lia.
  clear Hstrip. revert Start Rest H.
  induction Path as [|c rest IH]; intros Start Rest H; simpl in *;
    [discriminate|].
  destruct (Ascii.eqb c slash).
  - inversion H; subst. lia.
  - destruct (infer_slash rest) as [[A' B']|] eqn:E; [|discriminate].
    inversion H; subst. specialize (IH _ _ eq_refl). lia.
Qed.

(** [CreateEden] of the earlier revision. *)
Definition CreateEden0 {P : Type} (Path : string) (property : P) : Tree P :=
  _CreateEden0 (strip_slash Path) property.

(** The segments put together again. *)
Fixpoint join_slash (segments : list string) : string :=
  match segments with
  | [] => EmptyString
  | [segment] => segment
  | segment :: rest => segment +:+ String slash (join_slash rest)
  end.

End Eden.

(** ** Unwrapping the schema of a route *)

Module Unwrap.

(** A schema as a route declares it: a schema of the validator, known here
    by its static type, or the name of a schema of the application. *)
Inductive Schema : Type :=
| TSchema (static : Ty)
| Name (name : string).

(** [UnwrapSchema<Schema, Definitions>]; [None] is [undefined]. On these
    arguments the two revisions agree. *)
Definition UnwrapSchema (schema : option Schema) (Definitions : gmap string Ty)
  : Ty :=
  match schema with
  | None => TUnknown
  | Some (TSchema static) => static
  | Some (Name name) =>
      match Definitions !! name with
      | Some NamedSchema => NamedSchema
      | None => TObject Definitions
      end
  end.

(** The response slot of an [InputSchema]: one schema, or one per status. *)
Inductive ResponseSchema : Type :=
| Single (schema : Schema)
| ByStatus (statuses : gmap string Schema).

(** [InputSchema]. *)
Record InputSchema : Type := {
  input_body : option Schema;
  input_headers : option Schema;
  input_query : option Schema;
  input_params : option Schema;
  input_cookie : option Schema;
  input_response : option ResponseSchema
}.

(** The key of a status given per number: its decimal numeral. *)
Definition status_key (status : N) : string :=
  NilZero.string_of_uint (N.to_uint status).

(** The statuses of [SuccessfulResponse]. *)
Definition successful_statuses : list string :=
  ["200"; "201"; "202"; "203"; "204"; "205"; "206"; "207"; "208"; "226"].

(** [R extends SuccessfulResponse<TAnySchema | string>]: some member
    [{ status: T }] of the union is met. *)
Definition extends_SuccessfulResponse (statuses : gmap string Schema) : bool :=
  existsb (λ status, bool_decide (is_Some (statuses !! status)))
    successful_statuses.

(** The response slot of [UnwrapRoute], given the test for the statuses. *)
Definition unwrap_response (recognised : gmap string Schema → bool)
    (R : option ResponseSchema) (Definitions : gmap string Ty) : Ty :=
  match R with
  | Some (Single schema) => UnwrapSchema (Some schema) Definitions
  | Some (ByStatus statuses) =>
      if recognised statuses
      then TObject
             ((λ schema, UnwrapSchema (Some schema) Definitions)
                <$> statuses)
      else TUnion TUnknown TVoid
  | None => TUnion TUnknown TVoid
  end.

Definition unwrap_route (recognised : gmap string Schema → bool)
    (I : InputSchema) (Definitions : gmap string Ty) : RouteSchema :=
  {| body := UnwrapSchema (input_body I) Definitions;
     headers := UnwrapSchema (input_headers I) Definitions;
     query := UnwrapSchema (input_query I) Definitions;
     params := UnwrapSchema (input_params I) Definitions;
     cookie := UnwrapSchema (input_cookie I) Definitions;
     response := unwrap_response recognised (input_response I) Definitions |}.

(** [UnwrapRoute<Schema, Definitions>] of the later revision. *)
Definition UnwrapRoute : InputSchema → gmap string Ty → RouteSchema :=
  unwrap_route extends_SuccessfulResponse.

(** [UnwrapRoute] of the earlier revision, whose test for the statuses is
    [R extends { 200: TAnySchema | string }]. *)
Definition UnwrapRoute0 : InputSchema → gmap string Ty → RouteSchema :=
  unwrap_route (λ statuses, bool_decide (is_Some (statuses !! "200"))).

(** The slots other than the response. *)
Definition input_slot (s : SlotName) (I : InputSchema) : option Schema :=
  match s with
  | Sbody => input_body I
  | Sheaders => input_headers I
  | Squery => input_query I
  | Sparams => input_params I
  | Scookie => input_cookie I
  | Sresponse => None
  end.

End Unwrap.

(** ** Auxiliary predicates *)

(** Whether a string contains ['/']. *)
Fixpoint has_slash (s : string) : bool :=
  match s with
  | EmptyString => false
  | String c rest => Ascii.eqb c Template.slash || has_slash rest
  end.

(** Whether ["//"] occurs in a string. *)
Fixpoint double_slash (s : string) : bool :=
  match s with
  | EmptyString => false
  | String c rest =>
      (Ascii.eqb c Template.slash && Eden.starts_slash rest)
      || double_slash rest
  end.

(** An object type without optional properties. *)
Definition all_required {V : Type} (T : gmap string (Property V)) : Prop :=
  map_Forall (λ _ p, optional p = false) T.

(** Schemas of a route used where a statement needs an input. *)
Definition error_statuses : gmap string Unwrap.Schema :=
  {[ "404" := Unwrap.TSchema TString ]}.

Definition created_statuses : gmap string Unwrap.Schema :=
  {[ "201" := Unwrap.TSchema TNumber ]}.

Definition responding (R : option Unwrap.ResponseSchema)
  : Unwrap.InputSchema :=
  {| Unwrap.input_body := Some (Unwrap.Name "user");
     Unwrap.input_headers := None;
     Unwrap.input_query := None;
     Unwrap.input_params := None;
     Unwrap.input_cookie := None;
     Unwrap.input_response := R |}.

(** * Properties *)

(** Closed decidable statements, by evaluation. *)
Ltac decide_closed :=
  match goal with
  | |- ?P => apply (bool_decide_unpack P); vm_compute; exact I
  end.

(** ** The definitions on small inputs *)

Section Examples.
Import Template PathParameter PathTokens Trace ErrorHook WS.

Example GetPathParameter_users :
  GetPathParameter "/users/:id/*" = ["id"; "*"].
Proof. reflexivity. Qed.

Example GetPathParameter_health : GetPathParameter "/health" = [].
Proof. reflexivity. Qed.

Example GetPathParameter_odd_segments :
  GetPathParameter "/a//:/*x/:y/" = [""; "y"].
Proof. reflexivity. Qed.

Example split_slash_users :
  split_slash "/users/:id/*" = [""; "users"; ":id"; "*"].
Proof. reflexivity. Qed.

Example has_slash_token_bare : has_slash_token ":id" = false.
Proof. reflexivity. Qed.

Example TraceEvent_members : length TraceEvent = 16.
Proof. reflexivity. Qed.

Example ErrorHandler_default : ErrorHandler ∅ = fixed_members.
Proof. reflexivity. Qed.

Example typeof_null : typeof JNull = "object".
Proof. reflexivity. Qed.

Example MergeSchema_local_params :
  params (MergeSchema (with_params no_schema TString)
            (with_params no_schema TNumber)) = TString.
Proof. reflexivity. Qed.

Example Reconcile_override :
  Reconcile {["a" := required TString; "c" := required TBoolean]}
    {["a" := required TNumber]}
  !! "a" = Some (required TNumber).
Proof. reflexivity. Qed.

Example send_text_checked :
  Bun.trace
    ((this ← constructor (); @send () sample_platform this (JString "hi"))
       (sample_world None (Some strings_only))).2
  = [Bun.ECheck strings_only (JString "hi"); Bun.ERaw (Bun.Send (JString "hi"))].
Proof. reflexivity. Qed.

Example send_number_rejected :
  Bun.trace
    ((this ← constructor (); @send () sample_platform this (JNumber 3))
       (sample_world None (Some strings_only))).2
  = [Bun.ECheck strings_only (JNumber 3)].
Proof. reflexivity. Qed.

Example publish_null :
  Bun.trace
    ((this ← constructor ();
      @publish () sample_platform this "room" JNull None)
       (sample_world None None)).2
  = [Bun.ERaw (Bun.Publish "room" (JString "null") None)].
Proof. reflexivity. Qed.

Example message_forwarded :
  Bun.trace
    (@websocket echo_application (OnMessage (JString "hi"))
       (sample_world (Some "a") None)).2
  = [Bun.EInvoke "onMessage" [Bun.ArgSocket; Bun.ArgValue (JString "hi")];
     Bun.ERaw (Bun.Send (JString "hi"))].
Proof. reflexivity. Qed.

Example message_handler_throws :
  (@websocket echo_application (OnMessage (JNumber 3))
     (sample_world (Some "a") (Some strings_only))).1
  = Throws (ValidationError "message" strings_only (JNumber 3)).
Proof. reflexivity. Qed.

Example open_without_handler :
  Bun.trace (@websocket echo_application OnOpen (sample_world None None)).2
  = [].
Proof. reflexivity. Qed.

Example fresh_id :
  Bun.id (Bun.data (Bun.raw (constructor () (sample_world None None)).2))
  = Some "7".
Proof. reflexivity. Qed.

End Examples.

(** ** Path parameters agree with the description's tokens *)

Section PathParameterFacts.
Import Template PathParameter PathTokens.

Lemma infer_slash_split (p A B : string) :
  infer_slash p = Some (A, B) → split_slash p = A :: split_slash B.
Proof.
  revert A. induction p as [|c rest IH]; intros A H; simpl in *.
  - discriminate.
  - destruct (Ascii.eqb c slash).
    + by inversion H.
    + destruct (infer_slash rest) as [[A' B']|]; [|discriminate].
      inversion H; subst. by rewrite (IH A' eq_refl).
Qed.

Lemma infer_slash_none (p : string) :
  infer_slash p = None → split_slash p = [p].
Proof.
  induction p as [|c rest IH]; intros H; simpl in *.
  - done.
  - destruct (Ascii.eqb c slash); [discriminate|].
    destruct (infer_slash rest) as [[A B]|]; [discriminate|].
    by rewrite IH.
Qed.

Lemma IsPathParameter_token (segment : string) :
  IsPathParameter segment = omap token [segment].
Proof.
  unfold IsPathParameter, infer_colon.
  destruct segment as [|c name]; [done|].
  cbn [omap list_omap token].
  destruct (Ascii.eqb c colon); [done|].
  by destruct (String.eqb (String c name) "*").
Qed.

Lemma GetPathParameter_tokens (Path : string) :
  GetPathParameter Path = path_tokens Path.
Proof.
  unfold path_tokens. funelim (GetPathParameter Path).
  - rewrite H, IsPathParameter_token, (infer_slash_split _ _ _ Hinfer).
    by rewrite <- omap_app.
  - by rewrite IsPathParameter_token, (infer_slash_none _ e).
Qed.

End PathParameterFacts.

Section SlashTokenFacts.
Import Template PathTokens.

Lemma head_token_none (rest segment : string) (segments : list string) :
  split_slash rest = segment :: segments →
  match rest with
  | String d _ => Ascii.eqb d colon || Ascii.eqb d star
  | EmptyString => false
  end = false →
  token segment = None.
Proof.
  destruct rest as [|d r]; simpl.
  - intros [= <- _] _. done.
  - destruct (Ascii.eqb d slash) eqn:Hslash.
    + intros [= <- _] _. done.
    + intros Hsplit Hd. apply orb_false_iff in Hd as [Hcolon Hstar].
      assert (segment = String d (default EmptyString (head (split_slash r))))
        as -> by (destruct (split_slash r); by inversion Hsplit).
      unfold token. rewrite Hcolon.
      change "*" with (String star EmptyString).
      cbn [String.eqb]. fold star. by rewrite Hstar.
Qed.

Lemma split_slash_nonempty (p : string) : split_slash p ≠ [].
Proof.
  destruct p as [|c rest]; simpl; [done|].
  destruct (Ascii.eqb c slash); [done|]. by destruct (split_slash rest).
Qed.

Lemma no_slash_token_tail (p : string) :
  has_slash_token p = false → omap token (tail (split_slash p)) = [].
Proof.
  induction p as [|c rest IH]; simpl; [done|].
  intros H. apply orb_false_iff in H as [Hhere Hrest].
  specialize (IH Hrest).
  destruct (Ascii.eqb c slash) eqn:Hslash; simpl in *.
  - destruct (split_slash rest) as [|segment segments] eqn:Hsplit.
    + by apply split_slash_nonempty in Hsplit.
    + simpl in IH. cbn [omap list_omap].
      rewrite (head_token_none rest segment segments Hsplit Hhere).
      exact IH.
  - destruct (split_slash rest) as [|segment segments] eqn:Hsplit.
    + by apply split_slash_nonempty in Hsplit.
    + exact IH.
Qed.

(** A path that starts with ['/'] and has a token has a ['/'] directly
    before [':'] or ['*']. *)
Lemma rooted_path_without_slash_token (p : string) :
  starts_with_slash p = true → has_slash_token p = false →
  path_tokens p = [].
Proof.
  intros Hroot Hnone. pose proof (no_slash_token_tail p Hnone) as Htail.
  destruct p as [|c rest]; [done|]. simpl in Hroot.
  unfold path_tokens. simpl in *. rewrite Hroot in *. exact Htail.
Qed.

End SlashTokenFacts.

(** ** Object types built by [Record] *)

Lemma Record_lookup (Keys : list string) (T : Ty) (k : string) :
  fields_of (Record_ Keys T) !! k = if decide (k ∈ Keys) then Some T else None.
Proof.
  unfold Record_, fields_of. rewrite lookup_gset_to_gmap.
  destruct (decide (k ∈ Keys)) as [Hin|Hout].
  - rewrite option_guard_True; [done|]. by apply elem_of_list_to_set.
  - rewrite option_guard_False; [done|]. by rewrite elem_of_list_to_set.
Qed.

Lemma Record_dom (Keys : list string) (T : Ty) :
  dom (fields_of (Record_ Keys T)) = list_to_set Keys.
Proof. unfold Record_, fields_of. by rewrite dom_gset_to_gmap. Qed.

(** ** The synthesized params slot *)

Section SynthesizedParams.
Import Template PathParameter PathTokens.

Lemma TypedRoute1_params (Schema : RouteSchema) (Path : string) :
  params Schema = TUndefined →
  params (Types1.TypedRoute Schema Path) = Record_ (path_tokens Path) TString.
Proof.
  intros H. unfold Types1.TypedRoute. rewrite H. simpl.
  by rewrite GetPathParameter_tokens.
Qed.

Lemma TypedRoute0_params (Schema : RouteSchema) (Path : string) :
  params Schema = TUndefined →
  params (Types0.TypedRoute Schema Path) = Record_ (path_tokens Path) TString.
Proof.
  intros H. unfold Types0.TypedRoute. rewrite H. simpl.
  by rewrite GetPathParameter_tokens.
Qed.

Lemma MergeRouteSchema_params (A B : RouteSchema) (Path : string) :
  params A = TUndefined → params B = TUndefined →
  params (Types0.MergeRouteSchema A B Path) =
    if has_slash_token Path then Record_ (path_tokens Path) TString
    else TNever.
Proof.
  intros HA HB. unfold Types0.MergeRouteSchema, MergeSchema. simpl.
  rewrite HA, HB. simpl. by rewrite GetPathParameter_tokens.
Qed.

(** C4, as amended. For a schema without a params slot, the typed route of
    [LocalHook] (in both revisions of the module) gets as its params slot
    exactly the object type that maps each path-parameter token of the path
    to [string], where the tokens are those of the description: the path
    split on ['/'], a segment [:name] kept as [name] and a segment [*] as
    [*]. [MergeRouteSchema] and [UnwrapGroupGuardRoute] synthesize the same
    slot only for a path in which some ['/'] is directly followed by [':']
    or ['*'], and [never] otherwise; a path that starts with ['/'] and has a
    token is such a path. In all of them a path without tokens gives no
    parameter names. *)
Theorem synthesized_params (Schema Inherited : RouteSchema) (Path : string) :
  params Schema = TUndefined →
  params Inherited = TUndefined →
  GetPathParameter Path = path_tokens Path
  ∧ params (Types1.TypedRoute Schema Path)
    = Record_ (path_tokens Path) TString
  ∧ params (Types0.TypedRoute Schema Path)
    = Record_ (path_tokens Path) TString
  ∧ (∀ k, fields_of (Record_ (path_tokens Path) TString) !! k
          = if decide (k ∈ path_tokens Path) then Some TString else None)
  ∧ params (Types0.MergeRouteSchema Schema Inherited Path)
    = (if has_slash_token Path then Record_ (path_tokens Path) TString
       else TNever)
  ∧ UnwrapGroupGuardRoute_params TUnknown Path
    = (if has_slash_token Path then Record_ (path_tokens Path) TString
       else TNever)
  ∧ (starts_with_slash Path = true → path_tokens Path ≠ [] →
     has_slash_token Path = true)
  ∧ (path_tokens Path = [] →
     dom (fields_of (params (Types1.TypedRoute Schema Path))) = ∅
     ∧ dom (fields_of (params (Types0.TypedRoute Schema Path))) = ∅
     ∧ dom (fields_of (params (Types0.MergeRouteSchema Schema Inherited Path)))
       = ∅).
Proof.
  intros HS HI.
  pose proof (TypedRoute1_params Schema Path HS) as H1.
  pose proof (TypedRoute0_params Schema Path HS) as H0.
  pose proof (MergeRouteSchema_params Schema Inherited Path HS HI) as HM.
  repeat split; try done.
  - apply GetPathParameter_tokens.
  - intros k. apply Record_lookup.
  - unfold UnwrapGroupGuardRoute_params. simpl.
    by rewrite GetPathParameter_tokens.
  - intros Hroot Htokens. destruct (has_slash_token Path) eqn:E; [done|].
    by destruct Htokens; apply rooted_path_without_slash_token.
  - rewrite H1, Record_dom, H. done.
  - rewrite H0, Record_dom, H. done.
  - rewrite HM. destruct (has_slash_token Path).
    + rewrite Record_dom, H. done.
    + simpl. apply dom_empty_L.
Qed.

Lemma synthesized_params_witness :
  params no_schema = TUndefined
  ∧ GetPathParameter "/users/:id/*" = ["id"; "*"]
  ∧ params (Types1.TypedRoute no_schema "/users/:id/*")
    = Record_ ["id"; "*"] TString
  ∧ params (Types0.MergeRouteSchema no_schema no_schema "/users/:id/*")
    = Record_ ["id"; "*"] TString.
Proof.
  destruct (synthesized_params no_schema no_schema "/users/:id/*"
              eq_refl eq_refl)
    as (Hget & H1 & _ & _ & HM & _).
  split; [reflexivity|]. split; [exact Hget|]. split; [exact H1 | exact HM].
Defined.

(** C4 as stated fails for [MergeRouteSchema] and for
    [UnwrapGroupGuardRoute]: the path [":id"] has the token [id], no schema
    has a params slot, and the params slot is [never], not the mapping of
    [id] to [string]. *)
Lemma synthesized_params_counterexample :
  params no_schema = TUndefined
  ∧ path_tokens ":id" = ["id"]
  ∧ params (Types0.MergeRouteSchema no_schema no_schema ":id") = TNever
  ∧ UnwrapGroupGuardRoute_params TUnknown ":id" = TNever
  ∧ params (Types0.MergeRouteSchema no_schema no_schema ":id")
    ≠ Record_ (path_tokens ":id") TString.
Proof.
  split; [reflexivity|]. split; [reflexivity|]. split; [reflexivity|].
  split; [reflexivity|]. discriminate.
Qed.

End SynthesizedParams.

(** ** Merging schemas *)

(** C5, as amended. In [MergeSchema<A, B>] each slot is [A]'s unless
    [undefined] extends [A]'s slot, in which case it is [B]'s: an absent
    local slot takes the inherited one, a local slot whose type excludes
    [undefined] wins, and a local slot whose type admits [undefined] gives
    way to the inherited one. *)
Theorem MergeSchema_slot (A B : RouteSchema) (s : SlotName) :
  slot s (MergeSchema A B)
  = (if undefined_extends (slot s A) then slot s B else slot s A)
  ∧ (slot s A = TUndefined → slot s (MergeSchema A B) = slot s B)
  ∧ (undefined_extends (slot s A) = false →
     slot s (MergeSchema A B) = slot s A)
  ∧ (undefined_extends (slot s A) = true →
     slot s (MergeSchema A B) = slot s B).
Proof.
  assert (slot s (MergeSchema A B)
          = (if undefined_extends (slot s A) then slot s B else slot s A))
    as Heq by (by destruct s).
  split; [exact Heq|]. rewrite Heq. repeat split.
  - by intros ->.
  - by intros ->.
  - by intros ->.
Qed.

Lemma MergeSchema_slot_witness :
  slot Sbody (MergeSchema (with_params no_schema TString) no_schema)
  = TUndefined
  ∧ slot Sparams
      (MergeSchema (with_params no_schema TString)
         (with_params no_schema TNumber))
    = TString.
Proof.
  split.
  - apply (MergeSchema_slot (with_params no_schema TString) no_schema Sbody).
    reflexivity.
  - apply (MergeSchema_slot (with_params no_schema TString)
             (with_params no_schema TNumber) Sparams).
    reflexivity.
Defined.

(** C5 as stated fails: a local response slot of type [string | undefined]
    is defined, yet the merged slot is the inherited [number]. *)
Lemma MergeSchema_slot_counterexample :
  slot_defined (TUnion TString TUndefined) = true
  ∧ slot Sresponse (MergeSchema optional_text_response number_response)
    = TNumber
  ∧ ¬ (∀ (A B : RouteSchema) (s : SlotName),
         slot s (MergeSchema A B)
         = if slot_defined (slot s A) then slot s A else slot s B).
Proof.
  split; [reflexivity|]. split; [reflexivity|].
  intros H.
  specialize (H optional_text_response number_response Sresponse).
  discriminate H.
Qed.

(** ** Composing singleton namespaces *)

Section ReconcileFacts.
Context {V : Type}.
Implicit Types (A B : gmap string (Property V)).

(** The innermost definition wins, whatever else happens. *)
Lemma Reconcile_inner_wins A B (k : string) (p : Property V) :
  B !! k = Some p → Reconcile A B !! k = Some p.
Proof.
  intros HB. unfold Reconcile. simpl. case_decide; [done|].
  rewrite lookup_union, map_lookup_filter, HB.
  destruct (A !! k) as [a|]; simpl; [|done].
  rewrite option_guard_False; [done|]. simpl. by rewrite HB.
Qed.

(** When some property of [A] that [B] lacks is required, or [B] has every
    key of [A], the composition is the union in which [B] overrides [A]. *)
Lemma Reconcile_union A B :
  (∃ k p, A !! k = Some p ∧ B !! k = None ∧ optional p = false)
  ∨ dom A ⊆ dom B →
  dom (Reconcile A B) = dom A ∪ dom B
  ∧ ∀ k, Reconcile A B !! k
         = match B !! k with
           | Some p => Some p
           | None => A !! k
           end.
Proof.
  intros Hcase.
  assert (∀ k, Reconcile A B !! k
               = match B !! k with Some p => Some p | None => A !! k end)
    as Hlookup.
  { intros k. destruct (B !! k) as [p|] eqn:HB.
    { by apply Reconcile_inner_wins. }
    unfold Reconcile. simpl. case_decide as Hempty.
    - rewrite HB. destruct (A !! k) as [a|] eqn:HA; [|done].
      destruct Hcase as [(k' & p' & HA' & HB' & Hreq)|Hsub].
      + assert (optional p' = true) as Hopt.
        { apply (Hempty k'). by apply map_lookup_filter_Some. }
        congruence.
      + assert (k ∈ dom B) as Hin
          by (apply Hsub, elem_of_dom; by eexists).
        apply elem_of_dom in Hin as [b Hb]. congruence.
    - rewrite lookup_union, map_lookup_filter, HB.
      destruct (A !! k) as [a|]; simpl; [|done].
      rewrite option_guard_True; done. }
  split; [|exact Hlookup].
  apply set_eq. intros k. rewrite elem_of_union, !elem_of_dom, Hlookup.
  destruct (B !! k) as [b|], (A !! k) as [a|]; unfold is_Some;
    (split; [intros [x Hx] | intros [[x Hx]|[x Hx]]]);
    try discriminate; eauto.
Qed.

(** When every property of [A] that [B] lacks is optional, the composition
    is [B] alone. *)
Lemma Reconcile_optional_only A B :
  (∀ k p, A !! k = Some p → B !! k = None → optional p = true) →
  Reconcile A B = B.
Proof.
  intros Hopt. unfold Reconcile. simpl. case_decide as Hempty; [done|].
  destruct Hempty. intros k p Hk.
  apply map_lookup_filter_Some in Hk as [HA HB]. by apply (Hopt k).
Qed.

End ReconcileFacts.

(** C6. The claim does not hold of [Reconcile] on every pair of namespaces:
    with [A = { a?: string }] and [B = { b: number }] no property that
    [B] lacks is required, [{} extends Collision] holds, and the result is
    [B] alone. The key [a] of [A] is in the union of the keys but not in the
    composed namespace, which ought to map it to [A]'s value. *)
Theorem Reconcile_drops_optional :
  Reconcile optional_a required_b = required_b
  ∧ "a" ∈ dom optional_a ∪ dom required_b
  ∧ ("a" ∉ dom (Reconcile optional_a required_b))
  ∧ required_b !! "a" = None
  ∧ Reconcile optional_a required_b !! "a" ≠ optional_a !! "a".
Proof.
  assert (Reconcile optional_a required_b = required_b) as Heq.
  { apply Reconcile_optional_only. intros k p Hk _.
    unfold optional_a in Hk. apply lookup_singleton_Some in Hk as [_ <-].
    done. }
  rewrite Heq. split; [done|].
  split; [decide_closed|]. split; [decide_closed|].
  split; [reflexivity|]. discriminate.
Qed.

(** ** Trace events *)

Section TraceFacts.
Import Trace.




End TraceFacts.

(** ** Error hooks *)

Section ErrorHookFacts.
Import ErrorHook.

Lemma fixed_members_shape (ctx : ErrorContext) :
  ctx ∈ fixed_members ↔ fixed_shape (code ctx) = Some (error ctx).
Proof.
  split.
  - unfold fixed_members. rewrite !elem_of_cons, elem_of_nil.
    intros [->|[->|[->|[->|[->|[->|[]]]]]]]; reflexivity.
  - destruct ctx as [c e]. unfold fixed_shape, fixed_members. simpl.
    rewrite !filter_cons, filter_nil. simpl.
    repeat case_decide; simpl; intros [= <-]; subst; set_solver.
Qed.

Lemma custom_members_lookup (T : gmap string ErrorClass) (ctx : ErrorContext) :
  ctx ∈ custom_members T ↔ T !! code ctx = Some (error ctx).
Proof.
  unfold custom_members. rewrite list_elem_of_fmap. split.
  - intros ([k e] & -> & Hin). by apply elem_of_map_to_list in Hin.
  - intros H. exists (code ctx, error ctx). split; [by destruct ctx|].
    by apply elem_of_map_to_list.
Qed.

Lemma fixed_shape_code (c : string) (e : ErrorClass) :
  fixed_shape c = Some e → c ∈ fixed_codes.
Proof.
  intros H.
  assert ({| code := c; error := e |} ∈ fixed_members) as Hin
    by (by apply fixed_members_shape).
  unfold fixed_codes.
  by apply (list_elem_of_fmap_2 code) in Hin.
Qed.

(** C3. A context handed to an error hook of [ErrorHandler<T>] has one of
    the six fixed codes or a code that is a key of [T]; its error is the
    class that goes with the fixed code ([Error] for [UNKNOWN],
    [ValidationError] for [VALIDATION], and so on) or the class that [T]
    registers under the code. Conversely each such pair is admitted. *)
Theorem ErrorHandler_code_and_shape
    (T : gmap string ErrorClass) (ctx : ErrorContext) :
  (ctx ∈ ErrorHandler T →
   (code ctx ∈ fixed_codes ∨ code ctx ∈ dom T)
   ∧ (fixed_shape (code ctx) = Some (error ctx)
      ∨ T !! code ctx = Some (error ctx)))
  ∧ (fixed_shape (code ctx) = Some (error ctx)
     ∨ T !! code ctx = Some (error ctx) → ctx ∈ ErrorHandler T)
  ∧ fixed_codes
    = ["UNKNOWN"; "VALIDATION"; "NOT_FOUND"; "PARSE";
       "INTERNAL_SERVER_ERROR"; "INVALID_COOKIE_SIGNATURE"]
  ∧ fixed_shape <$> fixed_codes
    = Some <$> [Error; ValidationError; NotFoundError; ParseError;
                InternalServerError; InvalidCookieSignature].
Proof.
  unfold ErrorHandler. rewrite elem_of_app.
  rewrite fixed_members_shape, custom_members_lookup.
  split; [|split; [done|split; reflexivity]].
  intros [H|H]; (split; [|by auto]).
  - left. by eapply fixed_shape_code.
  - right. apply elem_of_dom. by eexists.
Qed.

Lemma ErrorHandler_code_and_shape_witness :
  {| code := "RateLimited"; error := CustomError "RateLimitedError" |}
    ∈ ErrorHandler {["RateLimited" := CustomError "RateLimitedError"]}
  ∧ ({| code := "VALIDATION"; error := ValidationError |}
       ∈ ErrorHandler {["RateLimited" := CustomError "RateLimitedError"]}
     → "VALIDATION" ∈ fixed_codes
       ∨ "VALIDATION"
         ∈ dom ({["RateLimited" := CustomError "RateLimitedError"]}
                : gmap string ErrorClass)).
Proof.
  split.
  - apply (ErrorHandler_code_and_shape
             {["RateLimited" := CustomError "RateLimitedError"]}
             {| code := "RateLimited";
                error := CustomError "RateLimitedError" |}).
    right. reflexivity.
  - intros H.
    apply (ErrorHandler_code_and_shape
             {["RateLimited" := CustomError "RateLimitedError"]}
             {| code := "VALIDATION"; error := ValidationError |}) in H.
    exact (proj1 H).
Defined.

End ErrorHookFacts.

(** ** The websocket adapter *)

Section AdapterFacts.
Import WS.
Context {Context : Type} `{Platform} `{Application}.

Implicit Types (this : ElysiaWS Context) (w : Bun.World) (data : JsValue).

Ltac run :=
  unfold outbound, publish, send, sendBinary, sendText, subscribe,
    unsubscribe, cork, close, terminate, isSubscribed, remoteAddress,
    get_id, set_id, validate, call_Check, call, invoke, optional_call,
    update, read, throw, mbind, M_bind, mret, M_ret in *;
  simpl in *.

Lemma constructor_run (ctx : Context) w :
  ∃ w1,
    constructor ctx w
    = (Returns {| WS.data := ctx;
                  WS.validator := Bun.validator (Bun.data (Bun.raw w)) |},
       w1)
    ∧ Bun.trace w1 = Bun.trace w
    ∧ Bun.id (Bun.data (Bun.raw w1))
      = (if truthy (Bun.id (Bun.data (Bun.raw w)))
         then Bun.id (Bun.data (Bun.raw w))
         else Some (Uint32_toString
                      (Bun.entropy w (Bun.drawn w) mod 2 ^ 32)%N)).
Proof.
  unfold constructor, getRandomValues. run.
  destruct (Bun.id (Bun.data (Bun.raw w))) as [[|c s]|]; simpl;
    eexists; (split; [reflexivity|by split]).
Qed.

(** What the guard before each write does. *)
Lemma validate_run this data w :
  validate this data w
  = match validator this with
    | None => (Returns (), w)
    | Some v =>
        (if Check v data then Returns ()
         else Throws (ValidationError "message" v data),
         Bun.emit (Bun.ECheck v data) w)
    end.
Proof.
  run. destruct (validator this) as [v|]; [|done].
  by destruct (Check v data).
Qed.

(** A write that follows a passed or absent check. *)
Lemma outbound_run this (op : Outbound) w :
  ∃ c, Bun.payload c = Some
         (match op with
          | DoPublish _ data _ => stringify_object data
          | DoSend data =>
              if Buffer_isBuffer data then data else stringify_object data
          | DoSendBinary data | DoSendText data => data
          end)
       ∧ outbound this op w
         = match validate this (outgoing op) w with
           | (Returns _, w') => (Returns this, Bun.emit (Bun.ERaw c) w')
           | (Throws e, w') => (Throws e, w')
           end.
Proof.
  rewrite validate_run.
  destruct op as [topic data compress|data|data|data]; simpl.
  - exists (Bun.Publish topic (stringify_object data) compress).
    split; [done|]. unfold publish. unfold mbind at 1, M_bind at 1.
    rewrite validate_run. run.
    destruct (validator this) as [v|]; [destruct (Check v data)|]; done.
  - exists (Bun.Send (if Buffer_isBuffer data then data
                      else stringify_object data)).
    split; [done|]. unfold send. unfold mbind at 1, M_bind at 1.
    rewrite validate_run. run.
    destruct (validator this) as [v|]; [destruct (Check v data)|];
      by destruct (Buffer_isBuffer data).
  - exists (Bun.SendBinary data).
    split; [done|]. unfold sendBinary. unfold mbind at 1, M_bind at 1.
    rewrite validate_run. run.
    destruct (validator this) as [v|]; [destruct (Check v data)|]; done.
  - exists (Bun.SendText data).
    split; [done|]. unfold sendText. unfold mbind at 1, M_bind at 1.
    rewrite validate_run. run.
    destruct (validator this) as [v|]; [destruct (Check v data)|]; done.
Qed.

Lemma raw_calls_emit_check (t : list Bun.Event) (v : TypeCheck) data :
  Bun.raw_calls (t ++ [Bun.ECheck v data]) = Bun.raw_calls t.
Proof. unfold Bun.raw_calls. rewrite omap_app. simpl. apply app_nil_r. Qed.

Lemma raw_calls_emit_raw (t : list Bun.Event) (c : Bun.RawCall) :
  Bun.raw_calls (t ++ [Bun.ERaw c]) = Bun.raw_calls t ++ [c].
Proof. unfold Bun.raw_calls. by rewrite omap_app. Qed.

(** C1. On a wrapper built over a connection whose data carries a checker,
    each of [publish], [send], [sendBinary] and [sendText] first calls the
    checker's [Check] on the outgoing data; when [Check] returns [false] the
    operation throws a [ValidationError] (code [VALIDATION]), calls no
    method of the socket and leaves the socket as it was. *)
Theorem outbound_checked (ctx : Context) (w0 : Bun.World) (v : TypeCheck) :
  Bun.validator (Bun.data (Bun.raw w0)) = Some v →
  ∃ this w1,
    constructor ctx w0 = (Returns this, w1)
    ∧ ∀ (op : Outbound) w, ∃ result w' rest,
        outbound this op w = (result, w')
        ∧ Bun.trace w' = Bun.trace w ++ Bun.ECheck v (outgoing op) :: rest
        ∧ (Check v (outgoing op) = false →
           result = Throws (ValidationError "message" v (outgoing op))
           ∧ code_of (ValidationError "message" v (outgoing op))
             = "VALIDATION"
           ∧ rest = []
           ∧ Bun.raw w' = Bun.raw w
           ∧ Bun.raw_calls (Bun.trace w') = Bun.raw_calls (Bun.trace w))
        ∧ (Check v (outgoing op) = true →
           result = Returns this ∧ ∃ c, rest = [Bun.ERaw c]).
Proof.
  intros Hv. destruct (constructor_run ctx w0) as (w1 & Hctor & _).
  rewrite Hv in Hctor.
  set (this := {| WS.data := ctx; WS.validator := Some v |}) in *.
  exists this, w1. split; [exact Hctor|].
  intros op w. destruct (outbound_run this op w) as (c & _ & ->).
  rewrite validate_run. simpl.
  destruct (Check v (outgoing op)) eqn:Hcheck.
  - eexists _, _, [Bun.ERaw c]. split; [reflexivity|]. simpl.
    split; [by rewrite <- app_assoc|]. split; [done|]. intros _. eauto.
  - eexists _, _, []. split; [reflexivity|]. simpl.
    split; [done|]. split; [|done]. intros _.
    repeat split. apply raw_calls_emit_check.
Qed.

(** C8. On a wrapper built over a connection whose data carries no checker,
    [publish], [send], [sendBinary] and [sendText] never throw: each returns
    the wrapper, and all it does is one call of the socket's method of the
    same name, with the data or, where the operation serializes, its JSON
    text. The trace grows by that one call; [Check] is not called. *)
Theorem outbound_unvalidated (ctx : Context) (w0 : Bun.World) :
  Bun.validator (Bun.data (Bun.raw w0)) = None →
  ∃ this w1,
    constructor ctx w0 = (Returns this, w1)
    ∧ ∀ (op : Outbound) w, ∃ w',
        outbound this op w = (Returns this, w')
        ∧ Bun.raw w' = Bun.raw w
        ∧ Bun.trace w'
          = Bun.trace w
            ++ [Bun.ERaw
                  match op with
                  | DoPublish topic data compress =>
                      Bun.Publish topic
                        (if String.eqb (typeof data) "object"
                         then JString (JSON_stringify data) else data)
                        compress
                  | DoSend data =>
                      Bun.Send
                        (if Buffer_isBuffer data then data
                         else if String.eqb (typeof data) "object"
                              then JString (JSON_stringify data) else data)
                  | DoSendBinary data => Bun.SendBinary data
                  | DoSendText data => Bun.SendText data
                  end]
        ∧ (∀ v value, Bun.ECheck v value ∈ Bun.trace w' →
                      Bun.ECheck v value ∈ Bun.trace w)
        ∧ (∀ e w'', outbound this op w ≠ (Throws e, w'')).
Proof.
  intros Hv. destruct (constructor_run ctx w0) as (w1 & Hctor & _).
  rewrite Hv in Hctor.
  set (this := {| WS.data := ctx; WS.validator := None |}) in *.
  exists this, w1. split; [exact Hctor|].
  intros op w. destruct (outbound_run this op w) as (c & _ & Hrun).
  rewrite validate_run in Hrun. simpl in Hrun.
  assert (outbound this op w
          = (Returns this,
             {| Bun.raw := Bun.raw w;
                Bun.trace :=
                  Bun.trace w
                  ++ [Bun.ERaw
                        match op with
                        | DoPublish topic data compress =>
                            Bun.Publish topic (stringify_object data) compress
                        | DoSend data =>
                            Bun.Send
                              (if Buffer_isBuffer data then data
                               else stringify_object data)
                        | DoSendBinary data => Bun.SendBinary data
                        | DoSendText data => Bun.SendText data
                        end];
                Bun.entropy := Bun.entropy w;
                Bun.drawn := Bun.drawn w |})) as Hout.
  { destruct op as [topic data compress|data|data|data]; simpl; run;
      try done.
    by destruct (Buffer_isBuffer data). }
  eexists. split; [exact Hout|]. simpl. split; [done|].
  split; [by destruct op|]. split; [|by rewrite Hout].
  intros v value Hin. apply elem_of_app in Hin as [Hin|Hin]; [done|].
  apply list_elem_of_singleton in Hin. discriminate Hin.
Qed.

(** Whether the guard lets a value through. *)
Lemma validate_passes this data w :
  match validator this with
  | Some v => Check v data
  | None => true
  end = true →
  ∃ w', validate this data w = (Returns (), w')
        ∧ Bun.raw w' = Bun.raw w
        ∧ Bun.raw_calls (Bun.trace w') = Bun.raw_calls (Bun.trace w).
Proof.
  intros Hpass. rewrite validate_run.
  destruct (validator this) as [v|]; [|by exists w].
  rewrite Hpass. eexists. split; [reflexivity|].
  split; [done|]. apply raw_calls_emit_check.
Qed.

(** C9. [send] hands a [Buffer] that passes validation to the socket as it
    is, and any other value whose [typeof] is ["object"] as its JSON text;
    [publish] has no case for [Buffer] and hands every value whose [typeof]
    is ["object"], a [Buffer] too, to the socket as its JSON text. *)
Theorem send_publish_serialization this data w :
  match validator this with
  | Some v => Check v data
  | None => true
  end = true →
  typeof data = "object" →
  (∃ w', send this data w = (Returns this, w')
         ∧ Bun.raw_calls (Bun.trace w')
           = Bun.raw_calls (Bun.trace w)
             ++ [Bun.Send (if Buffer_isBuffer data then data
                           else JString (JSON_stringify data))])
  ∧ (∀ topic compress, ∃ w',
       publish this topic data compress w = (Returns this, w')
       ∧ Bun.raw_calls (Bun.trace w')
         = Bun.raw_calls (Bun.trace w)
           ++ [Bun.Publish topic (JString (JSON_stringify data)) compress])
  ∧ (∀ bytes, data = JBuffer bytes →
       (∃ w', send this data w = (Returns this, w')
              ∧ Bun.raw_calls (Bun.trace w')
                = Bun.raw_calls (Bun.trace w) ++ [Bun.Send (JBuffer bytes)])
       ∧ ∀ topic compress, ∃ w',
           publish this topic data compress w = (Returns this, w')
           ∧ Bun.raw_calls (Bun.trace w')
             = Bun.raw_calls (Bun.trace w)
               ++ [Bun.Publish topic
                     (JString (JSON_stringify (JBuffer bytes))) compress]).
Proof.
  intros Hpass Hobject.
  destruct (validate_passes this data w Hpass) as (w1 & Hval & _ & Hcalls).
  assert (stringify_object data = JString (JSON_stringify data)) as Hjson
    by (unfold stringify_object; by rewrite Hobject).
  assert (∃ w', send this data w = (Returns this, w')
                ∧ Bun.raw_calls (Bun.trace w')
                  = Bun.raw_calls (Bun.trace w)
                    ++ [Bun.Send (if Buffer_isBuffer data then data
                                  else JString (JSON_stringify data))])
    as Hsend.
  { unfold send. unfold mbind at 1, M_bind at 1. rewrite Hval.
    destruct (Buffer_isBuffer data); run; eexists; (split; [reflexivity|]);
      simpl; rewrite raw_calls_emit_raw, Hcalls; by rewrite ?Hjson. }
  assert (∀ topic compress, ∃ w',
            publish this topic data compress w = (Returns this, w')
            ∧ Bun.raw_calls (Bun.trace w')
              = Bun.raw_calls (Bun.trace w)
                ++ [Bun.Publish topic (JString (JSON_stringify data))
                      compress])
    as Hpublish.
  { intros topic compress. unfold publish. unfold mbind at 1, M_bind at 1.
    rewrite Hval. run. eexists. split; [reflexivity|].
    simpl. by rewrite raw_calls_emit_raw, Hcalls, Hjson. }
  split; [exact Hsend|]. split; [exact Hpublish|].
  intros bytes ->. split; [exact Hsend | exact Hpublish].
Qed.

(** *** The connection id *)

Lemma Uint32_toString_nonempty (n : N) : Uint32_toString n ≠ "".
Proof.
  unfold Uint32_toString, NilZero.string_of_uint.
  by destruct (N.to_uint n).
Qed.

(** The text is the decimal numeral of the number: it reads back as it. *)
Lemma Uint32_toString_decimal (n : N) :
  N.of_uint <$> NilZero.uint_of_string (Uint32_toString n) = Some n.
Proof.
  unfold Uint32_toString. rewrite NilZero.usu.
  - simpl. f_equal. apply DecimalN.Unsigned.of_to.
  - destruct n as [|p]; [discriminate|]. apply DecimalPos.Unsigned.to_uint_nonnil.
Qed.

Lemma operation_keeps_id this (op : Operation) w :
  ∃ result w', operation this op w = (result, w')
               ∧ Bun.id (Bun.data (Bun.raw w'))
                 = Bun.id (Bun.data (Bun.raw w)).
Proof.
  destruct op as [o| | | | | | | |]; simpl.
  - destruct (outbound_run this o w) as (c & _ & Hrun).
    unfold mbind, M_bind. rewrite Hrun, validate_run.
    destruct (validator this) as [v|]; [destruct (Check v (outgoing o))|];
      by eexists _, _.
  - run. by eexists _, _.
  - run. by eexists _, _.
  - run. by eexists _, _.
  - run. by eexists _, _.
  - run. by eexists _, _.
  - run. by eexists _, _.
  - run. by eexists _, _.
  - run. by eexists _, _.
Qed.

(** C10, as amended. After construction the connection data has an id, a
    non-empty string: an id supplied by the caller is kept when it is not
    the empty string; when none is supplied, or the empty string is, the id
    is the decimal text of the 32-bit random value. From then on the getter
    returns the stored id, no operation other than the setter changes it,
    and the setter stores its argument. *)
Theorem constructor_id (ctx : Context) (w0 : Bun.World) :
  ∃ this w1,
    constructor ctx w0 = (Returns this, w1)
    ∧ (∃ s, Bun.id (Bun.data (Bun.raw w1)) = Some s ∧ s ≠ "")
    ∧ (∀ s, Bun.id (Bun.data (Bun.raw w0)) = Some s → s ≠ "" →
            Bun.id (Bun.data (Bun.raw w1)) = Some s)
    ∧ (Bun.id (Bun.data (Bun.raw w0)) = None
       ∨ Bun.id (Bun.data (Bun.raw w0)) = Some "" →
       ∃ n, n = (Bun.entropy w0 (Bun.drawn w0) mod 2 ^ 32)%N
            ∧ (n < 2 ^ 32)%N
            ∧ Bun.id (Bun.data (Bun.raw w1)) = Some (Uint32_toString n)
            ∧ N.of_uint <$> NilZero.uint_of_string (Uint32_toString n)
              = Some n)
    ∧ (∀ w, get_id this w = (Returns (Bun.id (Bun.data (Bun.raw w))), w))
    ∧ (∀ (op : Operation) w, ∃ result w',
         operation this op w = (result, w')
         ∧ Bun.id (Bun.data (Bun.raw w')) = Bun.id (Bun.data (Bun.raw w)))
    ∧ (∀ newID w, ∃ w',
         set_id this newID w = (Returns (), w')
         ∧ Bun.id (Bun.data (Bun.raw w')) = Some newID).
Proof.
  destruct (constructor_run ctx w0) as (w1 & Hctor & _ & Hid).
  eexists _, w1. split; [exact Hctor|].
  split; [|split; [|split; [|split; [|split]]]].
  - rewrite Hid.
    destruct (Bun.id (Bun.data (Bun.raw w0))) as [[|c s]|]; simpl;
      eexists; (split; [reflexivity|]);
      try apply Uint32_toString_nonempty; done.
  - intros s Hs Hne. rewrite Hid, Hs. by destruct s.
  - intros Hnone. eexists. split; [reflexivity|].
    split; [by apply N.mod_upper_bound|].
    split; [|apply Uint32_toString_decimal].
    rewrite Hid. by destruct Hnone as [-> | ->].
  - done.
  - intros op w. apply operation_keeps_id.
  - intros newID w. run. by eexists.
Qed.

(** C7. Each of the four lifecycle events is forwarded to the function of
    the same name stored in the connection's data: the call is made with
    the socket as first argument, then the message for [message] and the
    code and the reason for [close]; the function is entered in the world
    in which that call and nothing else has happened, and what it does and
    returns or throws is the outcome of the event, the table adding nothing
    and catching nothing. When no such function is stored nothing
    happens. *)
Theorem websocket_forwards w :
  (∀ f, Bun.open (Bun.data (Bun.raw w)) = Some f →
        ∃ w1, entered f [Bun.ArgSocket] w w1
              ∧ websocket OnOpen w = behaviour f [Bun.ArgSocket] w1)
  ∧ (Bun.open (Bun.data (Bun.raw w)) = None →
     websocket OnOpen w = (Returns (), w))
  ∧ (∀ message f, Bun.message (Bun.data (Bun.raw w)) = Some f →
        ∃ w1, entered f [Bun.ArgSocket; Bun.ArgValue message] w w1
              ∧ websocket (OnMessage message) w
                = behaviour f [Bun.ArgSocket; Bun.ArgValue message] w1)
  ∧ (∀ message, Bun.message (Bun.data (Bun.raw w)) = None →
        websocket (OnMessage message) w = (Returns (), w))
  ∧ (∀ f, Bun.drain (Bun.data (Bun.raw w)) = Some f →
        ∃ w1, entered f [Bun.ArgSocket] w w1
              ∧ websocket OnDrain w = behaviour f [Bun.ArgSocket] w1)
  ∧ (Bun.drain (Bun.data (Bun.raw w)) = None →
     websocket OnDrain w = (Returns (), w))
  ∧ (∀ code reason f, Bun.close (Bun.data (Bun.raw w)) = Some f →
        ∃ w1, entered f
                [Bun.ArgSocket; Bun.ArgNumber code; Bun.ArgString reason]
                w w1
              ∧ websocket (OnClose code reason) w
                = behaviour f
                    [Bun.ArgSocket; Bun.ArgNumber code; Bun.ArgString reason]
                    w1)
  ∧ (∀ code reason, Bun.close (Bun.data (Bun.raw w)) = None →
        websocket (OnClose code reason) w = (Returns (), w)).
Proof.
  unfold websocket, websocket_open, websocket_message, websocket_drain,
    websocket_close, entered.
  unfold optional_call, invoke, update, read, mbind, M_bind, mret, M_ret.
  repeat split; intros;
    match goal with
    | Hf : _ = Some _ |- ∃ _, _ =>
        rewrite Hf; eexists (Bun.emit _ w);
        (split; [by repeat split | reflexivity])
    | Hf : _ = None |- _ => by rewrite Hf
    end.
Qed.

End AdapterFacts.

(** ** The adapter on sample connections *)

Section AdapterSamples.
Import WS.

Lemma outbound_checked_witness :
  ∃ this w1 w',
    constructor () (sample_world (Some "a") (Some strings_only))
    = (Returns this, w1)
    ∧ @outbound () sample_platform this (DoSend (JNumber 3)) w1
      = (Throws (ValidationError "message" strings_only (JNumber 3)), w')
    ∧ Bun.raw w' = Bun.raw w1.
Proof.
  destruct (@outbound_checked () sample_platform ()
              (sample_world (Some "a") (Some strings_only))
              strings_only eq_refl) as (this & w1 & Hctor & Hop).
  destruct (Hop (DoSend (JNumber 3)) w1)
    as (result & w' & rest & Hrun & _ & Hfalse & _).
  destruct (Hfalse eq_refl) as (-> & _ & _ & Hraw & _).
  exists this, w1, w'. split; [exact Hctor|]. split; [exact Hrun | exact Hraw].
Defined.

Lemma outbound_unvalidated_witness :
  ∃ this w1 w',
    constructor () (sample_world (Some "a") None) = (Returns this, w1)
    ∧ @outbound () sample_platform this (DoSendText (JNumber 3)) w1
      = (Returns this, w')
    ∧ Bun.trace w' = Bun.trace w1 ++ [Bun.ERaw (Bun.SendText (JNumber 3))].
Proof.
  destruct (@outbound_unvalidated () sample_platform ()
              (sample_world (Some "a") None) eq_refl)
    as (this & w1 & Hctor & Hop).
  destruct (Hop (DoSendText (JNumber 3)) w1) as (w' & Hrun & _ & Htrace & _).
  exists this, w1, w'. split; [exact Hctor|].
  split; [exact Hrun | exact Htrace].
Defined.

Lemma send_publish_serialization_witness :
  ∃ w',
    @send () sample_platform {| data := (); validator := Some any_value |}
      (JBuffer [1; 2]%N) (sample_world None (Some any_value))
    = (Returns {| data := (); validator := Some any_value |}, w')
    ∧ Bun.raw_calls (Bun.trace w') = [Bun.Send (JBuffer [1; 2]%N)].
Proof.
  destruct (@send_publish_serialization () sample_platform
              {| data := (); validator := Some any_value |}
              (JBuffer [1; 2]%N) (sample_world None (Some any_value))
              eq_refl eq_refl) as (Hsend & _).
  exact Hsend.
Defined.

Lemma constructor_id_witness :
  ∃ this w1,
    constructor () (sample_world (Some "abc") None) = (Returns this, w1)
    ∧ Bun.id (Bun.data (Bun.raw w1)) = Some "abc".
Proof.
  destruct (@constructor_id () sample_platform ()
              (sample_world (Some "abc") None))
    as (this & w1 & Hctor & _ & Hkeep & _).
  exists this, w1. split; [exact Hctor|].
  apply Hkeep; [reflexivity | discriminate].
Defined.

(** C10 as stated fails: an id supplied by the caller is not always kept.
    The empty string is replaced by the text of the random value. *)
Lemma constructor_id_counterexample :
  Bun.id (Bun.data (Bun.raw (sample_world (Some "") None))) = Some ""
  ∧ Bun.id (Bun.data (Bun.raw
              (constructor () (sample_world (Some "") None)).2))
    = Some "7"
  ∧ ¬ (∀ w s, Bun.id (Bun.data (Bun.raw w)) = Some s →
              Bun.id (Bun.data (Bun.raw (constructor () w).2)) = Some s).
Proof.
  split; [reflexivity|]. split; [reflexivity|].
  intros H. specialize (H (sample_world (Some "") None) "" eq_refl).
  discriminate H.
Qed.

End AdapterSamples.

(** ** Chains of operations, and what the adapter leaves alone *)

Section AdapterUse.
Import WS Fluent.
Context {Context : Type} `{Platform}.

Implicit Types (this : ElysiaWS Context) (w : Bun.World) (data : JsValue).

Lemma emit_extend (e : Bun.Event) w : Bun.emit e w = extend [e] w.
Proof. reflexivity. Qed.

Lemma extend_extend (l1 l2 : list Bun.Event) w :
  extend l2 (extend l1 w) = extend (l1 ++ l2) w.
Proof. unfold extend. simpl. by rewrite app_assoc. Qed.

Lemma extend_nil w : extend [] w = w.
Proof. destruct w. unfold extend. simpl. by rewrite app_nil_r. Qed.

(** The closed form of one outbound operation. *)
Lemma outbound_written this (op : Outbound) w :
  outbound this op w
  = match validator this with
    | None => (Returns this, extend [Bun.ERaw (written op)] w)
    | Some v =>
        if Check v (outgoing op)
        then (Returns this,
              extend [Bun.ECheck v (outgoing op); Bun.ERaw (written op)] w)
        else (Throws (ValidationError "message" v (outgoing op)),
              extend [Bun.ECheck v (outgoing op)] w)
    end.
Proof.
  destruct op as [topic data compress|data|data|data]; simpl;
    [unfold publish|unfold send|unfold sendBinary|unfold sendText];
    unfold mbind at 1, M_bind at 1; rewrite validate_run;
    unfold call, update, mbind, M_bind, mret, M_ret; simpl;
    (destruct (validator this) as [v|]; [destruct (Check v data)|]);
    try destruct (Buffer_isBuffer data); simpl;
    rewrite ?emit_extend, ?extend_extend; reflexivity.
Qed.

Lemma raw_calls_app (l1 l2 : list Bun.Event) :
  Bun.raw_calls (l1 ++ l2) = Bun.raw_calls l1 ++ Bun.raw_calls l2.
Proof. unfold Bun.raw_calls. apply omap_app. Qed.

(** X1. A chain of outbound operations stops at the first value that the
    wrapper's checker rejects: the operations before it reach the socket in
    program order, each with one call; the rejected one and those after it
    do not; the chain throws the [ValidationError] of the rejected value.
    When nothing is rejected all operations reach the socket and the chain
    returns the wrapper. The socket's own state is not touched. *)
Theorem chain_stops_at_first_rejection this (ops : list Outbound) w :
  ∃ result w',
    chain this ops w = (result, w')
    ∧ Bun.raw_calls (Bun.trace w')
      = Bun.raw_calls (Bun.trace w)
        ++ (written <$> accepted (accepts this) ops)
    ∧ Bun.raw w' = Bun.raw w
    ∧ match rejected (accepts this) ops with
      | None => result = Returns this
      | Some bad =>
          ∃ v, validator this = Some v
               ∧ result = Throws (ValidationError "message" v (outgoing bad))
      end.
Proof.
  revert w. induction ops as [|op rest IH]; intros w.
  - exists (Returns this), w. simpl. by rewrite app_nil_r.
  - cbn [chain accepted rejected].
    unfold mbind at 1, M_bind at 1. rewrite outbound_written.
    destruct (accepts this op) eqn:Hacc; unfold accepts in Hacc;
      destruct (validator this) as [v|] eqn:Hv; try rewrite Hacc;
      try discriminate.
    + destruct (IH (extend [Bun.ECheck v (outgoing op);
                            Bun.ERaw (written op)] w))
        as (result & w' & Hrun & Hcalls & Hraw & Hres).
      exists result, w'. split; [exact Hrun|].
      split; [|split; [exact Hraw | exact Hres]].
      rewrite Hcalls. simpl. rewrite raw_calls_app. simpl.
      by rewrite <- app_assoc.
    + destruct (IH (extend [Bun.ERaw (written op)] w))
        as (result & w' & Hrun & Hcalls & Hraw & Hres).
      exists result, w'. split; [exact Hrun|].
      split; [|split; [exact Hraw | exact Hres]].
      rewrite Hcalls. simpl. rewrite raw_calls_app. simpl.
      by rewrite <- app_assoc.
    + eexists _, _. split; [reflexivity|]. simpl.
      split; [by rewrite raw_calls_app; simpl|].
      split; [done|]. by exists v.
Qed.

(** X2. What an outbound operation returns and what it does to its
    collaborators depends on the wrapper and the arguments only, not on the
    state of the socket; the socket's data, topics and address and the
    source of randomness are left as they are. In particular the checker
    used is the one the wrapper copied when it was built, whatever
    [raw.data.validator] holds later. *)
Theorem outbound_frame this (op : Outbound) :
  ∃ result events,
    (∀ w, outbound this op w = (result, extend events w))
    ∧ (List.length events ≤ 2)%nat
    ∧ Bun.raw_calls events
      = (if accepts this op then [written op] else []).
Proof.
  unfold accepts. destruct (validator this) as [v|] eqn:Hv.
  - destruct (Check v (outgoing op)) eqn:Hcheck.
    + exists (Returns this),
        [Bun.ECheck v (outgoing op); Bun.ERaw (written op)].
      split; [|split; [simpl; lia|reflexivity]].
      intros w. by rewrite outbound_written, Hv, Hcheck.
    + exists (Throws (ValidationError "message" v (outgoing op))),
        [Bun.ECheck v (outgoing op)].
      split; [|split; [simpl; lia|reflexivity]].
      intros w. by rewrite outbound_written, Hv, Hcheck.
  - exists (Returns this), [Bun.ERaw (written op)].
    split; [|split; [simpl; lia|reflexivity]].
    intros w. by rewrite outbound_written, Hv.
Qed.

(** X3. Which operations hand the value to the socket as it is: [sendText] and
    [sendBinary] always, objects included; [send] and [publish] for every
    value whose [typeof] is not ["object"], and [send] for a [Buffer]. In
    the other cases the socket gets the JSON text. *)
Theorem passthrough this (op : Outbound) w :
  accepts this op = true →
  ∃ w',
    outbound this op w = (Returns this, w')
    ∧ Bun.raw_calls (Bun.trace w')
      = Bun.raw_calls (Bun.trace w) ++ [written op]
    ∧ (Bun.payload (written op) = Some (outgoing op)
       ↔ serializes op = false)
    ∧ (serializes op = true →
       Bun.payload (written op)
       = Some (JString (JSON_stringify (outgoing op)))).
Proof.
  intros Hok. unfold accepts in Hok.
  exists (outbound this op w).2. split.
  { rewrite outbound_written.
    destruct (validator this) as [v|]; [rewrite Hok|]; reflexivity. }
  split.
  { rewrite outbound_written.
    destruct (validator this) as [v|]; [rewrite Hok|]; simpl;
      rewrite raw_calls_app; done. }
  destruct op as [topic data compress|data|data|data]; simpl;
    unfold stringify_object.
  - destruct data; simpl;
      (split; [split; intros Hx; done || discriminate
              |intros Hx; done || discriminate]).
  - destruct data; simpl;
      (split; [split; intros Hx; done || discriminate
              |intros Hx; done || discriminate]).
  - split; [split; done|done].
  - split; [split; done|done].
Qed.

End AdapterUse.

(** ** Construction, the shared id and the events of a connection *)

Section ConnectionFacts.
Import WS Fluent.
Context {Context : Type} `{Platform} `{Application}.

Implicit Types (this : ElysiaWS Context) (w : Bun.World).

Lemma set_same_id w (s : string) :
  Bun.id (Bun.data (Bun.raw w)) = Some s →
  Bun.set_raw
    (Bun.set_data (Bun.set_id (Some s) (Bun.data (Bun.raw w))) (Bun.raw w)) w
  = w.
Proof.
  destruct w as [[[i v o m d c] t a] tr e n]. simpl. by intros ->.
Qed.

(** The world after construction. *)
Lemma constructor_world (ctx : Context) w :
  constructor ctx w
  = (Returns {| WS.data := ctx;
                WS.validator := Bun.validator (Bun.data (Bun.raw w)) |},
     if truthy (Bun.id (Bun.data (Bun.raw w))) then w
     else {| Bun.raw :=
               Bun.set_data
                 (Bun.set_id
                    (Some (Uint32_toString
                             (Bun.entropy w (Bun.drawn w) mod 2 ^ 32)%N))
                    (Bun.data (Bun.raw w)))
                 (Bun.raw w);
             Bun.trace := Bun.trace w;
             Bun.entropy := Bun.entropy w;
             Bun.drawn := S (Bun.drawn w) |}).
Proof.
  unfold constructor, getRandomValues, set_id, update, read, mbind, M_bind,
    mret, M_ret. simpl.
  destruct (Bun.id (Bun.data (Bun.raw w))) as [[|c s]|] eqn:Hid; simpl;
    try reflexivity.
  f_equal. by apply set_same_id.
Qed.

(** X4. Building a wrapper never throws and calls nothing: no method of the
    socket, no checker, no stored function. Of the socket it changes at most
    the id; the checker, the stored functions, the topics and the address
    stay. It draws a random value exactly when the connection has no id or
    the empty one, and the wrapper's checker is the connection's. *)
Theorem constructor_frame (ctx : Context) w :
  ∃ this w',
    constructor ctx w = (Returns this, w')
    ∧ validator this = Bun.validator (Bun.data (Bun.raw w))
    ∧ Bun.trace w' = Bun.trace w
    ∧ Bun.set_id (Bun.id (Bun.data (Bun.raw w))) (Bun.data (Bun.raw w'))
      = Bun.data (Bun.raw w)
    ∧ Bun.topics (Bun.raw w') = Bun.topics (Bun.raw w)
    ∧ Bun.remoteAddress (Bun.raw w') = Bun.remoteAddress (Bun.raw w)
    ∧ Bun.drawn w'
      = (if truthy (Bun.id (Bun.data (Bun.raw w))) then Bun.drawn w
         else S (Bun.drawn w)).
Proof.
  eexists _, _. split; [apply constructor_world|].
  split; [done|].
  destruct (truthy (Bun.id (Bun.data (Bun.raw w)))); simpl;
    repeat split; by destruct w as [[[] ? ?] ? ? ?].
Qed.

(** X5. Wrapping a connection again (the server does so for every event)
    changes nothing: the second wrapper finds the id that the first one
    left, draws no random value, copies the same checker, and the world is
    the one after the first construction. *)
Theorem constructor_twice (ctx1 ctx2 : Context) w :
  ∃ this1 this2 w1,
    constructor ctx1 w = (Returns this1, w1)
    ∧ constructor ctx2 w1 = (Returns this2, w1)
    ∧ validator this2 = validator this1
    ∧ truthy (Bun.id (Bun.data (Bun.raw w1))) = true.
Proof.
  eexists _, _, _. split; [apply constructor_world|].
  assert (∀ n, truthy (Some (Uint32_toString n)) = true) as Hfresh.
  { intros n. unfold truthy.
    destruct (Uint32_toString n) eqn:E; [|done].
    by apply Uint32_toString_nonempty in E. }
  destruct (truthy (Bun.id (Bun.data (Bun.raw w)))) eqn:Hid.
  - rewrite constructor_world, Hid. by repeat split.
  - rewrite constructor_world. cbn -[truthy Uint32_toString N.modulo].
    rewrite Hfresh. by repeat split.
Qed.

(** X6. The id lives in the connection, not in the wrapper: what one wrapper
    sets, any other wrapper over the same connection reads; a later
    assignment overwrites an earlier one; and an assignment changes nothing
    but the id. *)
Theorem id_shared_between_wrappers this1 this2 (a b : string) w :
  (set_id this1 a;; get_id this2) w
  = (Returns (Some a), (set_id this1 a w).2)
  ∧ (set_id this1 a;; set_id this2 b) w = set_id this2 b w
  ∧ Bun.set_id (Bun.id (Bun.data (Bun.raw w)))
      (Bun.data (Bun.raw (set_id this1 a w).2))
    = Bun.data (Bun.raw w)
  ∧ Bun.topics (Bun.raw (set_id this1 a w).2) = Bun.topics (Bun.raw w)
  ∧ Bun.trace (set_id this1 a w).2 = Bun.trace w.
Proof.
  unfold set_id, get_id, update, read, mbind, M_bind. simpl.
  repeat split. by destruct w as [[[] ? ?] ? ? ?].
Qed.

Lemma invoked_app (l1 l2 : list Bun.Event) :
  invoked (l1 ++ l2) = invoked l1 ++ invoked l2.
Proof. unfold invoked. apply omap_app. Qed.

(** The table on one event, for a function stored for it. *)
Lemma websocket_stored (ev : Lifecycle) w :
  websocket ev w
  = match stored (Bun.data (Bun.raw w)) ev with
    | Some f =>
        behaviour f (arguments ev) (extend [Bun.EInvoke f (arguments ev)] w)
    | None => (Returns (), w)
    end.
Proof.
  destruct ev; simpl;
    unfold websocket_open, websocket_message, websocket_drain,
      websocket_close, optional_call, invoke, update, read, mbind, M_bind;
    simpl;
    match goal with
    | |- context [match ?f with Some _ => _ | None => _ end] => by destruct f
    end.
Qed.

Lemma invocation_stored (d d' : Bun.Data) (events : list Lifecycle) :
  (∀ ev, stored d' ev = stored d ev) →
  omap (invocation d') events = omap (invocation d) events.
Proof.
  intros Hd. induction events as [|ev rest IH]; [done|].
  cbn [omap list_omap]. fold (omap (invocation d') rest).
  fold (omap (invocation d) rest). rewrite IH.
  unfold invocation at 1 3. by rewrite Hd.
Qed.

(** X7. When the stored functions return, call no stored function
    themselves and leave the stored functions of the connection in place
    (they may send, subscribe or change the id), the events of a connection
    reach them in the order in which they arrive: each event for which a
    function is stored calls that function once with the event's
    arguments, an event for which nothing is stored calls nothing, and the
    table calls no function besides. *)
Theorem deliver_in_order (events : list Lifecycle) w :
  (∀ f args w0, ∃ w1,
     behaviour f args w0 = (Returns (), w1)
     ∧ (∀ ev, stored (Bun.data (Bun.raw w1)) ev
              = stored (Bun.data (Bun.raw w0)) ev)
     ∧ invoked (Bun.trace w1) = invoked (Bun.trace w0)) →
  ∃ w',
    deliver events w = (Returns (), w')
    ∧ invoked (Bun.trace w')
      = invoked (Bun.trace w)
        ++ omap (invocation (Bun.data (Bun.raw w))) events
    ∧ (∀ ev, stored (Bun.data (Bun.raw w')) ev
             = stored (Bun.data (Bun.raw w)) ev).
Proof.
  intros Hquiet. revert w. induction events as [|ev rest IH]; intros w.
  - exists w. simpl. by rewrite app_nil_r.
  - cbn [deliver]. unfold mbind, M_bind. rewrite websocket_stored.
    assert (∃ w1,
              match stored (Bun.data (Bun.raw w)) ev with
              | Some f =>
                  behaviour f (arguments ev)
                    (extend [Bun.EInvoke f (arguments ev)] w)
              | None => (Returns (), w)
              end = (Returns (), w1)
              ∧ (∀ ev', stored (Bun.data (Bun.raw w1)) ev'
                        = stored (Bun.data (Bun.raw w)) ev')
              ∧ invoked (Bun.trace w1)
                = invoked (Bun.trace w)
                  ++ option_list (invocation (Bun.data (Bun.raw w)) ev))
      as (w1 & -> & Hstored & Hinvoked).
    { unfold invocation.
      destruct (stored (Bun.data (Bun.raw w)) ev) as [f|]; simpl.
      - destruct (Hquiet f (arguments ev)
                    (extend [Bun.EInvoke f (arguments ev)] w))
          as (w1 & Hrun & Hst & Hinv).
        exists w1. split; [exact Hrun|]. split; [exact Hst|].
        rewrite Hinv. simpl. by rewrite invoked_app.
      - exists w. by rewrite app_nil_r. }
    destruct (IH w1) as (w' & Hrest & Hinv' & Hst').
    exists w'. split; [exact Hrest|]. split.
    + rewrite Hinv', Hinvoked, <- app_assoc. f_equal.
      rewrite (invocation_stored _ _ rest Hstored). simpl.
      by destruct (invocation (Bun.data (Bun.raw w)) ev).
    + intros ev'. by rewrite Hst', Hstored.
Qed.

(** X8. Subscribing, unsubscribing, closing, terminating and the three
    reads do not validate: none of them calls the checker or throws, even
    on a wrapper whose checker rejects every value; each makes at most one
    call, a call of the socket, and leaves the connection's data alone.
    [cork] is left out: the function it hands to the socket is one that
    uses the wrapper. *)
Theorem operations_without_validation this (op : Operation) w :
  (∀ o, op ≠ OpOutbound o) →
  (∀ callback, op ≠ OpCork callback) →
  ∃ w' events,
    operation this op w = (Returns (), w')
    ∧ Bun.data (Bun.raw w') = Bun.data (Bun.raw w)
    ∧ Bun.trace w' = Bun.trace w ++ events
    ∧ (List.length events ≤ 1)%nat
    ∧ Forall (λ e, ∃ c, e = Bun.ERaw c) events.
Proof.
  intros Hop Hcork.
  destruct op as [o| room | room | callback | | | room | |];
    [by destruct (Hop o)| | |by destruct (Hcork callback)|..];
    simpl;
    unfold subscribe, unsubscribe, close, terminate, isSubscribed,
      remoteAddress, get_id, call, update, read, mbind, M_bind, mret, M_ret;
    simpl.
  1-5: eexists _, [_]; repeat split; try done; try (simpl; lia);
    by repeat constructor; eexists.
  all: exists w, []; repeat split; try done; try (simpl; lia);
    by rewrite app_nil_r.
Qed.

End ConnectionFacts.

(** ** Paths put together *)

Section PathComposition.
Import Template PathParameter PathTokens.

Lemma split_slash_join (p q : string) :
  split_slash (p +:+ String slash q) = split_slash p ++ split_slash q.
Proof.
  induction p as [|c r IH]; simpl.
  - done.
  - destruct (Ascii.eqb c slash); [by rewrite IH|].
    rewrite IH. destruct (split_slash r) as [|segment segments] eqn:Hsplit.
    + by apply split_slash_nonempty in Hsplit.
    + done.
Qed.

Lemma has_slash_token_suffix (p q : string) :
  has_slash_token q = true → has_slash_token (p +:+ q) = true.
Proof.
  intros Hq. induction p as [|c r IH]; simpl; [done|].
  rewrite IH. apply orb_true_r.
Qed.

Lemma rooted_tokens (q : string) :
  starts_with_slash q = true →
  ∃ rest, q = String slash rest ∧ path_tokens q = path_tokens rest.
Proof.
  destruct q as [|c rest]; simpl; [done|].
  intros Hc. apply Ascii.eqb_eq in Hc as ->. exists rest. split; [done|].
  unfold path_tokens. by simpl.
Qed.

(** X9. The parameters of a path put together from two parts with a ['/']
    between them are the parameters of the first part followed by those of
    the second; so a route [path] that starts with ['/'], registered under
    a prefix, has the parameters of the prefix and then its own. *)
Theorem GetPathParameter_join (prefix path : string) :
  GetPathParameter (prefix +:+ String slash path)
  = GetPathParameter prefix ++ GetPathParameter path
  ∧ (starts_with_slash path = true →
     GetPathParameter (prefix +:+ path)
     = GetPathParameter prefix ++ GetPathParameter path).
Proof.
  assert (∀ p q, GetPathParameter (p +:+ String slash q)
                 = GetPathParameter p ++ GetPathParameter q) as Hjoin.
  { intros p q. rewrite !GetPathParameter_tokens. unfold path_tokens.
    by rewrite split_slash_join, omap_app. }
  split; [apply Hjoin|].
  intros Hroot. destruct (rooted_tokens path Hroot) as (rest & -> & Htok).
  rewrite Hjoin. f_equal. by rewrite !GetPathParameter_tokens.
Qed.

Lemma GetPathParameter_join_witness :
  GetPathParameter ("/org/:org" +:+ "/users/:id")
  = GetPathParameter "/org/:org" ++ GetPathParameter "/users/:id".
Proof.
  apply (GetPathParameter_join "/org/:org" "/users/:id"). reflexivity.
Defined.

(** X10. A route that starts with ['/'] and has a parameter keeps its
    synthesized params under every prefix: for schemas without a params
    slot [MergeRouteSchema] gives the route at [prefix + path] the mapping
    of the prefix's and the path's parameters to [string], never [never]. *)
Theorem prefixed_route_keeps_params
    (A B : RouteSchema) (prefix path : string) :
  params A = TUndefined → params B = TUndefined →
  starts_with_slash path = true → GetPathParameter path ≠ [] →
  params (Types0.MergeRouteSchema A B (prefix +:+ path))
  = Record_ (GetPathParameter prefix ++ GetPathParameter path) TString.
Proof.
  intros HA HB Hroot Hparams.
  assert (has_slash_token path = true) as Hguard.
  { destruct (has_slash_token path) eqn:E; [done|].
    destruct Hparams. rewrite GetPathParameter_tokens.
    by apply rooted_path_without_slash_token. }
  apply (has_slash_token_suffix prefix) in Hguard.
  unfold Types0.MergeRouteSchema, MergeSchema. simpl.
  rewrite HA, HB. simpl. rewrite Hguard.
  destruct (rooted_tokens path Hroot) as (rest & -> & Htok).
  f_equal. rewrite !GetPathParameter_tokens. unfold path_tokens.
  rewrite split_slash_join, omap_app. f_equal.
Qed.

Lemma prefixed_route_keeps_params_witness :
  params (Types0.MergeRouteSchema no_schema no_schema ("v1" +:+ "/users/:id"))
  = Record_ (GetPathParameter "v1" ++ GetPathParameter "/users/:id") TString.
Proof.
  apply (prefixed_route_keeps_params no_schema no_schema "v1" "/users/:id");
    [reflexivity | reflexivity | reflexivity | discriminate].
Defined.

End PathComposition.

Section ParameterNames.
Import Template PathParameter PathTokens.

Lemma split_slash_segments (p : string) :
  Forall (λ segment, has_slash segment = false) (split_slash p).
Proof.
  induction p as [|c r IH]; simpl; [by repeat constructor|].
  destruct (Ascii.eqb c slash) eqn:Hc; [by constructor|].
  destruct (split_slash r) as [|segment segments].
  - constructor; [simpl; by rewrite Hc | constructor].
  - inversion IH; subst. constructor; [|done]. simpl. by rewrite Hc.
Qed.

Lemma token_no_slash (segment name : string) :
  has_slash segment = false → token segment = Some name →
  has_slash name = false.
Proof.
  destruct segment as [|c rest]; simpl; [done|].
  intros Hs. apply orb_false_iff in Hs as [_ Hrest].
  destruct (Ascii.eqb c colon); [intros [= Heq]; by subst|].
  destruct (Ascii.eqb c "*"); [|done].
  destruct (String.eqb rest ""); [intros [= Heq]; by subst|done].
Qed.

Lemma omap_length_le {A B : Type} (f : A → option B) (l : list A) :
  (List.length (omap f l) ≤ List.length l)%nat.
Proof.
  induction l as [|x l IH]; [done|].
  cbn [omap list_omap List.length]. fold (omap f l).
  destruct (f x); cbn [List.length]; lia.
Qed.

(** X11. No parameter name of a path contains a ['/'], whatever the path, and a
    path has at most as many parameters as it has segments. *)
Theorem parameter_names_without_slash (Path : string) :
  Forall (λ name, has_slash name = false) (GetPathParameter Path)
  ∧ (List.length (GetPathParameter Path)
     ≤ List.length (split_slash Path))%nat.
Proof.
  rewrite GetPathParameter_tokens. unfold path_tokens. split.
  - apply Forall_forall. intros name Hin.
    apply list_elem_of_omap in Hin as (segment & Hseg & Htoken).
    eapply token_no_slash; [|exact Htoken].
    pose proof (split_slash_segments Path) as Hall.
    rewrite Forall_forall in Hall. by apply Hall.
  - apply omap_length_le.
Qed.

End ParameterNames.

(** ** The algebra of merging schemas *)

Lemma MergeSchema_slot_eq (A B : RouteSchema) (s : SlotName) :
  slot s (MergeSchema A B)
  = if undefined_extends (slot s A) then slot s B else slot s A.
Proof. by destruct s. Qed.

Lemma RouteSchema_eq (A B : RouteSchema) :
  (∀ s, slot s A = slot s B) → A = B.
Proof.
  intros Hs. destruct A, B.
  pose proof (Hs Sbody). pose proof (Hs Sheaders). pose proof (Hs Squery).
  pose proof (Hs Sparams). pose proof (Hs Scookie). pose proof (Hs Sresponse).
  simpl in *. congruence.
Qed.

(** X12. Merging is associative, so a local, a scoped and a global schema give
    the same route schema whichever two are merged first; merging a schema
    with itself changes nothing, and so does merging a schema all of whose
    slots admit [undefined], such as the empty one, with an inherited one.
    A slot of the merged schema admits [undefined] exactly when the slot
    does in both schemas: what either schema defines, the merged one
    defines. *)
Theorem MergeSchema_algebra (A B C : RouteSchema) :
  MergeSchema (MergeSchema A B) C = MergeSchema A (MergeSchema B C)
  ∧ MergeSchema A A = A
  ∧ ((∀ s, undefined_extends (slot s A) = true) → MergeSchema A B = B)
  ∧ (∀ s, undefined_extends (slot s (MergeSchema A B))
          = undefined_extends (slot s A) && undefined_extends (slot s B)).
Proof.
  split; [|split; [|split]].
  - apply RouteSchema_eq. intros s. rewrite !MergeSchema_slot_eq.
    destruct (undefined_extends (slot s A)) eqn:HA; [done|]. by rewrite HA.
  - apply RouteSchema_eq. intros s. rewrite MergeSchema_slot_eq.
    by destruct (undefined_extends (slot s A)).
  - intros HA. apply RouteSchema_eq. intros s.
    by rewrite MergeSchema_slot_eq, HA.
  - intros s. rewrite MergeSchema_slot_eq.
    by destruct (undefined_extends (slot s A)) eqn:HA.
Qed.

(** ** Typed routes *)

Section TypedRouteFacts.
Import PathParameter.

Lemma extends_Record_meet (old T : Ty) :
  extends_Record T = true → extends_Record (meet old T) = true.
Proof.
  intros HT. destruct old; simpl; rewrite ?HT; try done; apply orb_true_r.
Qed.

(** X13. The typed route of a hook differs from the schema in the params slot
    at most; a schema whose params slot is an object type is kept as it is,
    whatever the path; and typing a typed route again changes nothing. *)
Theorem TypedRoute_frame (Schema : RouteSchema) (Path : string) :
  (∀ s, s ≠ Sparams →
        slot s (Types1.TypedRoute Schema Path) = slot s Schema
        ∧ slot s (Types0.TypedRoute Schema Path) = slot s Schema)
  ∧ (extends_Record (params Schema) = true →
     Types1.TypedRoute Schema Path = Schema
     ∧ Types0.TypedRoute Schema Path = Schema)
  ∧ Types1.TypedRoute (Types1.TypedRoute Schema Path) Path
    = Types1.TypedRoute Schema Path
  ∧ Types0.TypedRoute (Types0.TypedRoute Schema Path) Path
    = Types0.TypedRoute Schema Path.
Proof.
  split; [|split; [|split]].
  - intros s Hs. unfold Types1.TypedRoute, Types0.TypedRoute.
    destruct (extends_Record (params Schema)); [done|].
    destruct (undefined_extends (params Schema)); by destruct s.
  - intros HR. unfold Types1.TypedRoute, Types0.TypedRoute. by rewrite HR.
  - unfold Types1.TypedRoute.
    destruct (extends_Record (params Schema)) eqn:HR; [by rewrite HR|].
    destruct (undefined_extends (params Schema)) eqn:HU.
    + simpl. by rewrite extends_Record_meet.
    + by rewrite HR, HU.
  - unfold Types0.TypedRoute.
    destruct (extends_Record (params Schema)) eqn:HR; [by rewrite HR|].
    simpl. by rewrite extends_Record_meet.
Qed.

Lemma TypedRoute_frame_witness :
  Types1.TypedRoute (with_params no_schema (Record_ ["id"] TNumber)) "/u/:id"
  = with_params no_schema (Record_ ["id"] TNumber).
Proof.
  destruct (TypedRoute_frame (with_params no_schema (Record_ ["id"] TNumber))
              "/u/:id") as (_ & Hkept & _).
  apply Hkept. reflexivity.
Defined.

(** X14. The two revisions give a hook the same typed route unless the params
    slot is a type that neither is an object type nor admits [undefined]
    (such as [string]): the later revision keeps such a schema as it is,
    the earlier one intersects the slot with the mapping of the path's
    parameters. *)
Theorem TypedRoute_revisions (Schema : RouteSchema) (Path : string) :
  (extends_Record (params Schema) = true
   ∨ undefined_extends (params Schema) = true →
   Types1.TypedRoute Schema Path = Types0.TypedRoute Schema Path)
  ∧ (extends_Record (params Schema) = false →
     undefined_extends (params Schema) = false →
     Types1.TypedRoute Schema Path = Schema
     ∧ params (Types0.TypedRoute Schema Path)
       = TIntersect (params Schema)
           (Record_ (GetPathParameter Path) TString)).
Proof.
  unfold Types1.TypedRoute, Types0.TypedRoute. split.
  - intros [HR|HU].
    + by rewrite HR.
    + rewrite HU. by destruct (extends_Record (params Schema)).
  - intros HR HU. rewrite HR, HU. split; [done|]. simpl.
    by destruct (params Schema).
Qed.

Lemma TypedRoute_revisions_witness :
  Types1.TypedRoute no_schema "/u/:id" = Types0.TypedRoute no_schema "/u/:id"
  ∧ params (Types0.TypedRoute (with_params no_schema TString) "/u/:id")
    = TIntersect TString (Record_ (GetPathParameter "/u/:id") TString).
Proof.
  split.
  - destruct (TypedRoute_revisions no_schema "/u/:id") as [Hsame _].
    apply Hsame. right. reflexivity.
  - destruct (TypedRoute_revisions (with_params no_schema TString) "/u/:id")
      as [_ Hdiffer].
    apply Hdiffer; reflexivity.
Defined.

End TypedRouteFacts.

(** ** The algebra of composing namespaces *)

Section ReconcileAlgebra.
Context {V : Type}.
Implicit Types (A B C : gmap string (Property V)).

Lemma Reconcile_lookup_cases A B (k : string) :
  Reconcile A B !! k = B !! k
  ∨ (B !! k = None ∧ Reconcile A B !! k = A !! k).
Proof.
  unfold Reconcile. simpl. case_decide; [by left|].
  rewrite lookup_union, map_lookup_filter.
  destruct (B !! k) as [b|] eqn:HB.
  - left. destruct (A !! k) as [a|]; simpl; [|done].
    rewrite option_guard_False; [done|]. simpl. by rewrite HB.
  - right. split; [done|]. destruct (A !! k) as [a|]; simpl; [|done].
    by rewrite option_guard_True.
Qed.

(** X15. Composition overrides and never merges or invents: every property of
    the composed namespace is [B]'s property of that key or, when [B] has
    none, [A]'s; every key of [B] is kept with [B]'s property. Composing a
    namespace with itself, or the empty one with [B], changes nothing. *)
Theorem Reconcile_algebra A B :
  (∀ k p, Reconcile A B !! k = Some p →
          B !! k = Some p ∨ (B !! k = None ∧ A !! k = Some p))
  ∧ (∀ k p, B !! k = Some p → Reconcile A B !! k = Some p)
  ∧ dom B ⊆ dom (Reconcile A B)
  ∧ dom (Reconcile A B) ⊆ dom A ∪ dom B
  ∧ Reconcile A A = A
  ∧ Reconcile ∅ B = B.
Proof.
  assert (∀ k p, B !! k = Some p → Reconcile A B !! k = Some p) as Hwins.
  { intros k p HB. destruct (Reconcile_lookup_cases A B k) as [->|[HN _]];
      congruence. }
  split; [|split; [exact Hwins|split; [|split; [|split]]]].
  - intros k p Hk.
    destruct (Reconcile_lookup_cases A B k) as [Heq|[HN Heq]];
      rewrite Heq in Hk; auto.
  - intros k Hk. apply elem_of_dom in Hk as [p Hp].
    apply elem_of_dom. exists p. by apply Hwins.
  - intros k Hk. apply elem_of_dom in Hk as [p Hp].
    apply elem_of_union. rewrite !elem_of_dom.
    destruct (Reconcile_lookup_cases A B k) as [Heq|[HN Heq]];
      rewrite Heq in Hp; [right|left]; by exists p.
  - unfold Reconcile. simpl. case_decide as Hempty; [done|].
    destruct Hempty. intros k p Hk.
    apply map_lookup_filter_Some in Hk as [Hk Hnone]. simpl in Hnone.
    congruence.
  - unfold Reconcile. simpl. case_decide as Hempty; [done|].
    destruct Hempty. intros k p Hk.
    apply map_lookup_filter_Some in Hk as [Hk _].
    by rewrite lookup_empty in Hk.
Qed.

Lemma Reconcile_required A B :
  all_required A → Reconcile A B = B ∪ A.
Proof.
  intros HA. apply map_eq. intros k. rewrite lookup_union.
  unfold Reconcile. simpl. case_decide as Hempty.
  - destruct (B !! k) as [b|] eqn:HB; simpl.
    { by destruct (A !! k). }
    destruct (A !! k) as [a|] eqn:HAk; simpl; [|done].
    assert (optional a = true) as Hopt.
    { apply (Hempty k). by apply map_lookup_filter_Some. }
    specialize (HA k a HAk). simpl in HA. congruence.
  - rewrite lookup_union, map_lookup_filter.
    destruct (B !! k) as [b|] eqn:HB, (A !! k) as [a|] eqn:HAk; simpl;
      try done.
    + rewrite option_guard_False; [done|]. simpl. by rewrite HB.
    + by rewrite option_guard_True.
Qed.

Lemma all_required_union A B :
  all_required A → all_required B → all_required (B ∪ A).
Proof.
  intros HA HB k p Hk. apply lookup_union_Some_raw in Hk as [Hk|[_ Hk]].
  - by apply (HB k).
  - by apply (HA k).
Qed.

(** X16. On namespaces without optional properties composition is the union in
    which the inner namespace overrides the outer one, and it is
    associative: composing three applications gives the same namespace
    whichever two are composed first. *)
Theorem Reconcile_required_assoc A B C :
  all_required A → all_required B →
  Reconcile A B = B ∪ A
  ∧ all_required (Reconcile A B)
  ∧ Reconcile (Reconcile A B) C = Reconcile A (Reconcile B C).
Proof.
  intros HA HB. rewrite (Reconcile_required A B HA).
  split; [done|]. split; [by apply all_required_union|].
  rewrite (Reconcile_required _ C (all_required_union A B HA HB)).
  rewrite (Reconcile_required A _ HA), (Reconcile_required B C HB).
  apply (assoc_L (∪)).
Qed.

(** X17. The composition is the union in which [B] overrides [A] exactly when
    some property of [A] that [B] lacks is required or [B] has every key
    of [A]; in the one case left, where [A] has a key that [B] lacks and
    all such keys are optional, those keys are lost. *)
Theorem Reconcile_is_union_iff A B :
  (Reconcile A B = B ∪ A
   ↔ (∃ k p, A !! k = Some p ∧ B !! k = None ∧ optional p = false)
     ∨ dom A ⊆ dom B)
  ∧ (Reconcile A B ≠ B ∪ A →
     Reconcile A B = B ∧ ∃ k, is_Some (A !! k) ∧ Reconcile A B !! k = None).
Proof.
  assert (Reconcile A B = B ∪ A
          ↔ (∃ k p, A !! k = Some p ∧ B !! k = None ∧ optional p = false)
            ∨ dom A ⊆ dom B) as Hiff.
  { split.
    - intros Heq. unfold Reconcile in Heq. simpl in Heq.
      case_decide as Hempty.
      + right. intros k Hk. apply elem_of_dom in Hk as [a Ha].
        destruct (B !! k) as [b|] eqn:HB; [apply elem_of_dom; eauto|].
        assert ((B ∪ A) !! k = Some a) as Hk
          by (by rewrite lookup_union, HB, Ha).
        rewrite <- Heq in Hk. congruence.
      + left. apply map_not_Forall in Hempty as (k & p & Hk & Hp);
          [|intros; apply _].
        apply map_lookup_filter_Some in Hk as [HA HB]. exists k, p.
        repeat split; try done. by destruct (optional p).
    - intros Hcase. apply map_eq. intros k.
      destruct (Reconcile_union A B Hcase) as [_ Hlookup].
      rewrite Hlookup, lookup_union. by destruct (B !! k), (A !! k). }
  split; [exact Hiff|].
  intros Hne.
  assert (Reconcile A B = B) as HB.
  { unfold Reconcile in *. simpl in *. case_decide as Hempty; [done|].
    destruct Hne. apply Hiff. left.
    apply map_not_Forall in Hempty as (k & p & Hk & Hp);
      [|intros; apply _].
    apply map_lookup_filter_Some in Hk as [HA HBk]. exists k, p.
    repeat split; try done. by destruct (optional p). }
  split; [exact HB|].
  destruct (decide (dom A ⊆ dom B)) as [Hsub|Hsub].
  { destruct Hne. apply Hiff. by right. }
  destruct (set_choose_or_empty (dom A ∖ dom B)) as [[k Hk]|Hnone].
  - apply elem_of_difference in Hk as [HkA HkB]. exists k.
    split; [by apply elem_of_dom|]. rewrite HB. by apply not_elem_of_dom.
  - destruct Hsub. intros k Hk.
    destruct (decide (k ∈ dom B)) as [Hin|Hout]; [done|].
    assert (k ∈ dom A ∖ dom B) as Hdiff by (by apply elem_of_difference).
    apply Hnone in Hdiff. by apply elem_of_empty in Hdiff.
Qed.

End ReconcileAlgebra.

Lemma Reconcile_required_assoc_witness :
  Reconcile (Reconcile {["a" := required TString]} required_b)
    {["a" := required TNumber]}
  = Reconcile {["a" := required TString]}
      (Reconcile required_b {["a" := required TNumber]}).
Proof.
  apply (Reconcile_required_assoc {["a" := required TString]} required_b
           {["a" := required TNumber]}).
  - intros k p Hk. apply lookup_singleton_Some in Hk as [_ <-]. reflexivity.
  - intros k p Hk. unfold required_b in Hk.
    apply lookup_singleton_Some in Hk as [_ <-]. reflexivity.
Defined.

(** ** Remapped keys *)

Section RemapFacts.
Context {V : Type}.
Implicit Types (T : gmap Key V).

Lemma app_cons (c : ascii) (s1 s2 : string) :
  String c s1 +:+ s2 = String c (s1 +:+ s2).
Proof. reflexivity. Qed.

Lemma app_length (s1 s2 : string) :
  String.length (s1 +:+ s2) = (String.length s1 + String.length s2)%nat.
Proof.
  induction s1 as [|c s1 IH]; [done|]. rewrite app_cons. simpl. by f_equal.
Qed.

Lemma app_nil_right (s : string) : s +:+ "" = s.
Proof. induction s as [|c s IH]; [done|]. rewrite app_cons. by f_equal. Qed.

Lemma app_assoc_string (s1 s2 s3 : string) :
  s1 +:+ (s2 +:+ s3) = (s1 +:+ s2) +:+ s3.
Proof.
  induction s1 as [|c s1 IH]; [done|]. rewrite !app_cons. by f_equal.
Qed.

Lemma prefix_inj (Prefix : string) :
  Inj (=) (=) (λ K : string, StringKey (Prefix +:+ K)).
Proof.
  intros K1 K2 Heq. injection Heq as Heq.
  by apply (inj (String.app Prefix)).
Qed.

Lemma suffix_inj (Suffix : string) :
  Inj (=) (=) (λ K : string, StringKey (K +:+ Suffix)).
Proof.
  intros K1 K2 Heq. injection Heq as Heq. revert K2 Heq.
  induction K1 as [|c K1 IH]; intros K2 Heq.
  - destruct K2 as [|c2 K2]; [done|].
    apply (f_equal String.length) in Heq.
    rewrite !app_length in Heq. simpl in Heq. lia.
  - destruct K2 as [|c2 K2].
    + apply (f_equal String.length) in Heq.
      rewrite !app_length in Heq. simpl in Heq. lia.
    + rewrite !app_cons in Heq. injection Heq as -> Heq.
      f_equal. by apply IH.
Qed.

#[local] Existing Instances prefix_inj suffix_inj.

Lemma string_keyed_lookup T (s : string) :
  string_keyed T !! s = T !! StringKey s.
Proof.
  unfold string_keyed. revert s.
  apply (map_fold_weak_ind
           (λ acc (m : gmap Key V), ∀ s, acc !! s = m !! StringKey s)).
  - intros s. by rewrite !lookup_empty.
  - intros K v m acc Hnone IH s. destruct K as [s'|n|d].
    + destruct (decide (s = s')) as [->|Hne].
      * by rewrite !lookup_insert_eq.
      * rewrite !lookup_insert_ne by congruence. apply IH.
    + rewrite lookup_insert_ne by congruence. apply IH.
    + rewrite lookup_insert_ne by congruence. apply IH.
Qed.

Lemma AddPrefix_Some (Prefix : string) T (key : Key) (v : V) :
  AddPrefix Prefix T !! key = Some v
  ↔ ∃ K, key = StringKey (Prefix +:+ K) ∧ T !! StringKey K = Some v.
Proof.
  unfold AddPrefix.
  rewrite (lookup_kmap_Some (λ K : string, StringKey (Prefix +:+ K))).
  by setoid_rewrite string_keyed_lookup.
Qed.

Lemma AddSuffix_Some (Suffix : string) T (key : Key) (v : V) :
  AddSuffix Suffix T !! key = Some v
  ↔ ∃ K, key = StringKey (K +:+ Suffix) ∧ T !! StringKey K = Some v.
Proof.
  unfold AddSuffix.
  rewrite (lookup_kmap_Some (λ K : string, StringKey (K +:+ Suffix))).
  by setoid_rewrite string_keyed_lookup.
Qed.

(** X18. Prefixing and suffixing keep the properties with a string key and
    no others: the property of a string key is found under the new key,
    every property of the result is the property of a string key of the
    original under its new key, and no two keys run together. The
    properties with a numeric or a symbol key are left out, so the result
    has string keys only. *)
Theorem AddPrefix_AddSuffix_lookup (Prefix Suffix : string) T :
  (∀ K, AddPrefix Prefix T !! StringKey (Prefix +:+ K) = T !! StringKey K)
  ∧ (∀ key v, AddPrefix Prefix T !! key = Some v ↔
              ∃ K, key = StringKey (Prefix +:+ K)
                   ∧ T !! StringKey K = Some v)
  ∧ (∀ K, AddSuffix Suffix T !! StringKey (K +:+ Suffix) = T !! StringKey K)
  ∧ (∀ key v, AddSuffix Suffix T !! key = Some v ↔
              ∃ K, key = StringKey (K +:+ Suffix)
                   ∧ T !! StringKey K = Some v)
  ∧ (∀ n, AddPrefix Prefix T !! NumberKey n = None
          ∧ AddSuffix Suffix T !! NumberKey n = None)
  ∧ (∀ d, AddPrefix Prefix T !! SymbolKey d = None
          ∧ AddSuffix Suffix T !! SymbolKey d = None).
Proof.
  split; [|split; [|split; [|split; [|split]]]].
  - intros K. unfold AddPrefix.
    rewrite (lookup_kmap (λ K : string, StringKey (Prefix +:+ K))).
    apply string_keyed_lookup.
  - apply AddPrefix_Some.
  - intros K. unfold AddSuffix.
    rewrite (lookup_kmap (λ K : string, StringKey (K +:+ Suffix))).
    apply string_keyed_lookup.
  - apply AddSuffix_Some.
  - intros n. split; apply eq_None_not_Some; intros [v Hv].
    + by apply AddPrefix_Some in Hv as (K & ? & _).
    + by apply AddSuffix_Some in Hv as (K & ? & _).
  - intros d. split; apply eq_None_not_Some; intros [v Hv].
    + by apply AddPrefix_Some in Hv as (K & ? & _).
    + by apply AddSuffix_Some in Hv as (K & ? & _).
Qed.

(** X19. Prefixes and suffixes compose: a prefix added to prefixed keys is the
    longer prefix, outermost first; a suffix added to suffixed keys is the
    longer suffix, outermost last; and it does not matter whether the
    prefix or the suffix is added first. The empty prefix and the empty
    suffix keep the properties with a string key as they are and leave out
    the others, so they change nothing exactly when every key is a
    string. *)
Theorem AddPrefix_AddSuffix_compose (P Q : string) T :
  AddPrefix P (AddPrefix Q T) = AddPrefix (P +:+ Q) T
  ∧ AddSuffix P (AddSuffix Q T) = AddSuffix (Q +:+ P) T
  ∧ AddPrefix P (AddSuffix Q T) = AddSuffix Q (AddPrefix P T)
  ∧ AddPrefix "" T = AddSuffix "" T
  ∧ (∀ key, AddPrefix "" T !! key
            = match key with
              | StringKey _ => T !! key
              | NumberKey _ | SymbolKey _ => None
              end)
  ∧ (AddPrefix "" T = T ↔ ∀ key, is_Some (T !! key) → ∃ K, key = StringKey K).
Proof.
  assert (∀ key, AddPrefix "" T !! key
                 = match key with
                   | StringKey _ => T !! key
                   | NumberKey _ | SymbolKey _ => None
                   end) as Hempty.
  { intros key. apply option_eq. intros v. rewrite AddPrefix_Some.
    destruct key as [s|n|d]; split;
      try (by intros (K & ? & _)); try done.
    - by intros (K & [= ->] & HK).
    - intros HK. by exists s. }
  split; [|split; [|split; [|split; [|split]]]].
  - apply map_eq. intros key. apply option_eq. intros v.
    rewrite !AddPrefix_Some. split.
    + intros (K1 & -> & HK1). apply AddPrefix_Some in HK1 as (K & HK1 & HK).
      injection HK1 as ->. exists K. by rewrite app_assoc_string.
    + intros (K & -> & HK). exists (Q +:+ K).
      split; [by rewrite app_assoc_string|]. apply AddPrefix_Some. eauto.
  - apply map_eq. intros key. apply option_eq. intros v.
    rewrite !AddSuffix_Some. split.
    + intros (K1 & -> & HK1). apply AddSuffix_Some in HK1 as (K & HK1 & HK).
      injection HK1 as ->. exists K. by rewrite app_assoc_string.
    + intros (K & -> & HK). exists (K +:+ Q).
      split; [by rewrite app_assoc_string|]. apply AddSuffix_Some. eauto.
  - apply map_eq. intros key. apply option_eq. intros v.
    rewrite AddPrefix_Some, AddSuffix_Some. split.
    + intros (K1 & -> & HK1). apply AddSuffix_Some in HK1 as (K & HK1 & HK).
      injection HK1 as ->. exists (P +:+ K).
      split; [by rewrite app_assoc_string|]. apply AddPrefix_Some. eauto.
    + intros (K1 & -> & HK1). apply AddPrefix_Some in HK1 as (K & HK1 & HK).
      injection HK1 as ->. exists (K +:+ Q).
      split; [by rewrite app_assoc_string|]. apply AddSuffix_Some. eauto.
  - apply map_eq. intros key. apply option_eq. intros v.
    rewrite AddPrefix_Some, AddSuffix_Some.
    split; intros (K & -> & HK); exists K; by rewrite ?app_nil_right.
  - exact Hempty.
  - split.
    + intros Heq key [v Hv]. rewrite <- Heq, Hempty in Hv.
      destruct key as [s|n|d]; [by exists s|done..].
    + intros Hkeys. apply map_eq. intros key. rewrite Hempty.
      destruct key as [s|n|d]; [done|..]; symmetry;
        apply eq_None_not_Some; intros Hsome;
        by destruct (Hkeys _ Hsome).
Qed.

End RemapFacts.

(** ** The client tree of a path *)

Section EdenFacts.
Import Template PathTokens Eden.
Context {P : Type}.

Lemma keys_CreateEden_segments (Path : string) (p : P) :
  keys (_CreateEden Path p) = split_slash Path ∧ leaf (_CreateEden Path p) = p.
Proof.
  funelim (_CreateEden Path p).
  - destruct H as [Hkeys Hleaf]. simpl.
    by rewrite Hkeys, (infer_slash_split _ _ _ Hinfer).
  - simpl. by rewrite (infer_slash_none _ e).
Qed.

Lemma join_split (s : string) : join_slash (split_slash s) = s.
Proof.
  induction s as [|c r IH]; [done|]. simpl.
  destruct (Ascii.eqb c slash) eqn:Hc.
  - apply Ascii.eqb_eq in Hc as ->.
    destruct (split_slash r) as [|segment segments] eqn:Hsplit.
    + by apply split_slash_nonempty in Hsplit.
    + change (join_slash ("" :: segment :: segments))
        with ("" +:+ String slash (join_slash (segment :: segments))).
      by rewrite IH.
  - destruct (split_slash r) as [|segment segments] eqn:Hsplit.
    + by apply split_slash_nonempty in Hsplit.
    + destruct segments as [|next segments]; [by rewrite <- IH|].
      change (join_slash (String c segment :: next :: segments))
        with (String c (segment +:+
                String slash (join_slash (next :: segments)))).
      by rewrite <- IH.
Qed.

(** X20. The tree of a path has one level per segment, outermost first, and the
    property at the bottom; the keys joined with ['/'] give the path back
    without its leading ['/'], so two paths have the same tree exactly when
    they are equal up to one leading ['/']. The empty path is the
    exception: its tree is that of ["index"]. *)
Theorem CreateEden_round_trip (Path : string) (p : P) :
  (Path ≠ "" →
   keys (CreateEden Path p) = split_slash (strip_slash Path)
   ∧ join_slash (keys (CreateEden Path p)) = strip_slash Path
   ∧ leaf (CreateEden Path p) = p
   ∧ ∀ Other, Other ≠ "" →
       (CreateEden Path p = CreateEden Other p
        ↔ strip_slash Path = strip_slash Other))
  ∧ CreateEden "" p = CreateEden "index" p.
Proof.
  assert (∀ Q, Q ≠ "" → CreateEden Q p = _CreateEden (strip_slash Q) p)
    as Hstrip.
  { intros [|c Q] HQ; [done|]. simpl. by destruct (Ascii.eqb c slash). }
  split; [|reflexivity].
  intros HPath. rewrite (Hstrip Path HPath).
  destruct (keys_CreateEden_segments (strip_slash Path) p) as [Hkeys Hleaf].
  split; [exact Hkeys|]. split; [by rewrite Hkeys, join_split|].
  split; [exact Hleaf|].
  intros Other HOther. rewrite (Hstrip Other HOther). split.
  - intros Heq. apply (f_equal keys) in Heq.
    rewrite Hkeys in Heq.
    rewrite (proj1 (keys_CreateEden_segments (strip_slash Other) p)) in Heq.
    apply (f_equal join_slash) in Heq. by rewrite !join_split in Heq.
  - by intros ->.
Qed.

Lemma no_double_slash_rest (Path Start Rest : string) :
  infer_slash Path = Some (Start, Rest) → double_slash Path = false →
  strip_slash Rest = Rest ∧ double_slash Rest = false.
Proof.
  revert Start. induction Path as [|c r IH]; intros Start; simpl;
    [discriminate|].
  destruct (Ascii.eqb c slash); simpl.
  - intros [= <- <-] Hds. apply orb_false_iff in Hds as [Hstart Hrest].
    split; [|done]. unfold starts_slash in Hstart. unfold strip_slash.
    destruct r as [|d r]; [done|]. by rewrite Hstart.
  - destruct (infer_slash r) as [[A B]|]; [|discriminate].
    intros [= <- <-] Hds. by apply (IH A).
Qed.

Lemma CreateEden0_segments (Path : string) (p : P) :
  double_slash Path = false →
  keys (_CreateEden0 Path p) = split_slash Path
  ∧ leaf (_CreateEden0 Path p) = p.
Proof.
  funelim (_CreateEden0 Path p); intros Hds.
  - destruct (no_double_slash_rest _ _ _ Hinfer Hds) as [Hstrip Hrest].
    rewrite Hstrip in H. destruct (H Hrest) as [Hkeys Hleaf]. simpl.
    by rewrite Hstrip, Hkeys, (infer_slash_split _ _ _ Hinfer).
  - simpl. by rewrite (infer_slash_none _ e).
Qed.

Lemma Tree_ext (t1 t2 : Tree P) :
  keys t1 = keys t2 → leaf t1 = leaf t2 → t1 = t2.
Proof.
  revert t2. induction t1 as [p1|x1 t1 IH]; intros [p2|x2 t2]; simpl;
    try discriminate.
  - by intros _ ->.
  - intros [= -> Hkeys] Hleaf. f_equal. by apply IH.
Qed.

(** X21. The two revisions build the same tree for every path other than the
    empty one in which no ["//"] follows the leading ['/']; for the rest the
    earlier revision takes a ['/'] off the front of what follows each
    segment, and it has no ["index"] for the empty path. *)
Theorem CreateEden_revisions (Path : string) (p : P) :
  (Path ≠ "" → double_slash (strip_slash Path) = false →
   CreateEden0 Path p = CreateEden Path p)
  ∧ keys (CreateEden0 "a//b" p) = ["a"; "b"]
  ∧ keys (CreateEden "a//b" p) = ["a"; ""; "b"]
  ∧ keys (CreateEden0 "" p) = [""]
  ∧ keys (CreateEden "" p) = ["index"].
Proof.
  split; [|by repeat split].
  intros HPath Hds. unfold CreateEden0.
  assert (CreateEden Path p = _CreateEden (strip_slash Path) p) as ->.
  { destruct Path as [|c Q]; [done|]. simpl.
    by destruct (Ascii.eqb c slash). }
  destruct (CreateEden0_segments (strip_slash Path) p Hds) as [Hk0 Hl0].
  destruct (keys_CreateEden_segments (strip_slash Path) p) as [Hk1 Hl1].
  apply Tree_ext; congruence.
Qed.

End EdenFacts.

Lemma CreateEden_round_trip_witness :
  Eden.join_slash (Eden.keys (Eden.CreateEden "/users/:id" ())) = "users/:id".
Proof.
  destruct (CreateEden_round_trip "/users/:id" ()) as [Hpath _].
  destruct Hpath as (_ & Hjoin & _); [discriminate|exact Hjoin].
Defined.

Lemma CreateEden_revisions_witness :
  Eden.CreateEden0 "/users/:id" () = Eden.CreateEden "/users/:id" ().
Proof.
  destruct (CreateEden_revisions "/users/:id" ()) as [Hsame _].
  apply Hsame; [discriminate|reflexivity].
Defined.

(** ** Unwrapping the schema of a route *)

Section UnwrapFacts.
Import Unwrap.

Lemma extends_SuccessfulResponse_status (statuses : gmap string Schema) :
  extends_SuccessfulResponse statuses = true
  ↔ ∃ status, status ∈ successful_statuses ∧ is_Some (statuses !! status).
Proof.
  unfold extends_SuccessfulResponse. rewrite existsb_exists. split.
  - intros (status & Hin & Hsome). exists status. split.
    + by apply list_elem_of_In.
    + by apply bool_decide_eq_true in Hsome.
  - intros (status & Hin & Hsome). exists status. split.
    + by apply list_elem_of_In.
    + by apply bool_decide_eq_true.
Qed.

(** X22. For a response given per status, the statuses that count are
    200 to 208 and 226: when one of them is declared the response is
    unwrapped status by status, no status added or dropped, and is a type
    that excludes [undefined]; when none of them is, as for a route that
    declares 404 and 500 only, nothing is unwrapped and the response is
    [unknown | void]. *)
Theorem UnwrapRoute_response_by_status (I : InputSchema)
    (Definitions : gmap string Ty) (statuses : gmap string Schema) :
  input_response I = Some (ByStatus statuses) →
  (extends_SuccessfulResponse statuses = true
   ↔ ∃ n, ((200 ≤ n ≤ 208)%N ∨ n = 226%N)
          ∧ is_Some (statuses !! status_key n))
  ∧ ((∃ n, ((200 ≤ n ≤ 208)%N ∨ n = 226%N)
           ∧ is_Some (statuses !! status_key n)) →
     undefined_extends (response (UnwrapRoute I Definitions)) = false
     ∧ ∀ k, fields_of (response (UnwrapRoute I Definitions)) !! k
            = (λ schema, UnwrapSchema (Some schema) Definitions)
                <$> statuses !! k)
  ∧ ((∀ n, (200 ≤ n ≤ 208)%N ∨ n = 226%N →
           statuses !! status_key n = None) →
     response (UnwrapRoute I Definitions) = TUnion TUnknown TVoid).
Proof.
  intros HI.
  assert (extends_SuccessfulResponse statuses = true
          ↔ ∃ n, ((200 ≤ n ≤ 208)%N ∨ n = 226%N)
                 ∧ is_Some (statuses !! status_key n)) as Hiff.
  { rewrite extends_SuccessfulResponse_status. split.
    - intros (status & Hin & Hsome). unfold successful_statuses in Hin.
      repeat (apply elem_of_cons in Hin as [->|Hin];
              [match goal with
               | H : is_Some (statuses !! ?k) |- _ =>
                   first
                     [ exists 200%N; split; [lia|exact H]
                     | exists 201%N; split; [lia|exact H]
                     | exists 202%N; split; [lia|exact H]
                     | exists 203%N; split; [lia|exact H]
                     | exists 204%N; split; [lia|exact H]
                     | exists 205%N; split; [lia|exact H]
                     | exists 206%N; split; [lia|exact H]
                     | exists 207%N; split; [lia|exact H]
                     | exists 208%N; split; [lia|exact H]
                     | exists 226%N; split; [lia|exact H] ]
               end|]).
      by apply elem_of_nil in Hin.
    - intros (n & Hn & Hsome). exists (status_key n).
      split; [|exact Hsome].
      assert (n = 200 ∨ n = 201 ∨ n = 202 ∨ n = 203 ∨ n = 204 ∨ n = 205
              ∨ n = 206 ∨ n = 207 ∨ n = 208 ∨ n = 226)%N as Hor by lia.
      repeat (destruct Hor as [->|Hor]; [decide_closed|]).
      subst n. decide_closed. }
  split; [exact Hiff|].
  unfold UnwrapRoute, unwrap_route, unwrap_response. simpl. rewrite HI.
  split.
  - intros Hsome. rewrite (proj2 Hiff Hsome). simpl. split; [done|].
    intros k. by rewrite lookup_fmap.
  - intros Hnone.
    destruct (extends_SuccessfulResponse statuses); [|done].
    destruct (proj1 Hiff eq_refl) as (n & Hn & [schema Hschema]).
    by rewrite (Hnone n Hn) in Hschema.
Qed.

(** X23. The earlier revision asks for status 200 where the later one asks for a
    success status: the two agree on every slot but the response, and on
    the response unless it is given per status with a success status but
    without 200, which the earlier revision leaves as [unknown | void]. *)
Theorem UnwrapRoute_revisions (I : InputSchema)
    (Definitions : gmap string Ty) :
  (∀ s, s ≠ Sresponse →
     slot s (UnwrapRoute0 I Definitions) = slot s (UnwrapRoute I Definitions))
  ∧ ((∀ statuses, input_response I = Some (ByStatus statuses) →
        is_Some (statuses !! "200")
        ∨ extends_SuccessfulResponse statuses = false) →
     UnwrapRoute0 I Definitions = UnwrapRoute I Definitions)
  ∧ (∀ statuses, input_response I = Some (ByStatus statuses) →
       statuses !! "200" = None →
       response (UnwrapRoute0 I Definitions) = TUnion TUnknown TVoid).
Proof.
  split; [by intros []|]. split.
  - intros Hstatuses. unfold UnwrapRoute0, UnwrapRoute, unwrap_route.
    f_equal. unfold unwrap_response.
    destruct (input_response I) as [[schema|statuses]|]; [done| |done].
    destruct (Hstatuses statuses eq_refl) as [H200|Hnone].
    + rewrite bool_decide_eq_true_2 by done.
      assert (extends_SuccessfulResponse statuses = true) as ->; [|done].
      apply extends_SuccessfulResponse_status. exists "200". split; [|done].
      unfold successful_statuses. set_solver.
    + rewrite Hnone.
      destruct (bool_decide (is_Some (statuses !! "200"))) eqn:H200; [|done].
      apply bool_decide_eq_true in H200.
      assert (extends_SuccessfulResponse statuses = true) as Hyes;
        [|congruence].
      apply extends_SuccessfulResponse_status. exists "200". split; [|done].
      unfold successful_statuses. set_solver.
  - intros statuses HI H200.
    unfold UnwrapRoute0, unwrap_route, unwrap_response. simpl.
    rewrite HI, H200. rewrite bool_decide_eq_false_2; [done|].
    by intros [? ?].
Qed.

(** X24. The schema a route declares, unwrapped and merged over an inherited
    one: a slot the route leaves out is inherited; a name the application
    has not declared unwraps to the definitions themselves and stands
    against the inherited slot; a response given per status without a
    success status does not stand against the inherited response. *)
Theorem local_schema_over_inherited (I : InputSchema)
    (Definitions : gmap string Ty) (Inherited : RouteSchema) :
  (∀ s, s ≠ Sresponse → input_slot s I = None →
     slot s (MergeSchema (UnwrapRoute I Definitions) Inherited)
     = slot s Inherited)
  ∧ (∀ s name, input_slot s I = Some (Name name) →
       slot s (MergeSchema (UnwrapRoute I Definitions) Inherited)
       = match Definitions !! name with
         | Some T => if undefined_extends T then slot s Inherited else T
         | None => TObject Definitions
         end)
  ∧ (input_response I = None →
     response (MergeSchema (UnwrapRoute I Definitions) Inherited)
     = response Inherited)
  ∧ (∀ statuses, input_response I = Some (ByStatus statuses) →
       response (MergeSchema (UnwrapRoute I Definitions) Inherited)
       = if extends_SuccessfulResponse statuses
         then TObject ((λ schema, UnwrapSchema (Some schema) Definitions)
                         <$> statuses)
         else response Inherited).
Proof.
  split; [|split; [|split]].
  - intros s Hs HI. rewrite MergeSchema_slot_eq.
    destruct s; simpl in *; try done; by rewrite HI.
  - intros s name HI. rewrite MergeSchema_slot_eq.
    destruct s; simpl in *; try discriminate; rewrite HI; simpl;
      by destruct (Definitions !! name).
  - intros HI. simpl. unfold unwrap_response. by rewrite HI.
  - intros statuses HI. simpl. unfold unwrap_response. rewrite HI.
    by destruct (extends_SuccessfulResponse statuses).
Qed.

End UnwrapFacts.

Lemma UnwrapRoute_response_by_status_witness :
  response (Unwrap.UnwrapRoute
              (responding (Some (Unwrap.ByStatus error_statuses))) ∅)
  = TUnion TUnknown TVoid.
Proof.
  destruct (UnwrapRoute_response_by_status
              (responding (Some (Unwrap.ByStatus error_statuses))) ∅
              error_statuses eq_refl) as (_ & _ & Hnot).
  apply Hnot. intros n Hn. unfold error_statuses.
  apply lookup_singleton_ne. intros Heq.
  assert (N.of_uint <$> NilZero.uint_of_string "404"
          = N.of_uint <$> NilZero.uint_of_string (Unwrap.status_key n))
    as Hnum by (by rewrite Heq).
  pose proof (Uint32_toString_decimal n) as Hdecimal.
  unfold Unwrap.status_key in Hnum. unfold Uint32_toString in Hdecimal.
  rewrite Hdecimal in Hnum. injection Hnum as <-. vm_compute in Hn.
  by destruct Hn as [[_ Hhi]|Heq'].
Defined.

Lemma UnwrapRoute_revisions_witness :
  response (Unwrap.UnwrapRoute0
              (responding (Some (Unwrap.ByStatus created_statuses))) ∅)
  = TUnion TUnknown TVoid.
Proof.
  destruct (UnwrapRoute_revisions
              (responding (Some (Unwrap.ByStatus created_statuses))) ∅)
    as (_ & _ & Hearlier).
  apply (Hearlier created_statuses); reflexivity.
Defined.

Lemma local_schema_over_inherited_witness :
  slot Sbody
    (MergeSchema
       (Unwrap.UnwrapRoute
          (responding (Some (Unwrap.ByStatus error_statuses))) ∅)
       no_schema)
  = TObject ∅.
Proof.
  destruct (local_schema_over_inherited
              (responding (Some (Unwrap.ByStatus error_statuses))) ∅
              no_schema) as (_ & Hname & _).
  apply (Hname Sbody "user"). reflexivity.
Defined.

(** ** The adapter on a sample connection *)

Lemma passthrough_witness :
  ∃ w',
    @WS.outbound () sample_platform
      {| WS.data := (); WS.validator := Some strings_only |}
      (WS.DoSendText (JString "hi")) (sample_world None None)
    = (WS.Returns {| WS.data := (); WS.validator := Some strings_only |}, w')
    ∧ Bun.raw_calls (Bun.trace w') = [Bun.SendText (JString "hi")].
Proof.
  destruct (@passthrough () sample_platform
              {| WS.data := (); WS.validator := Some strings_only |}
              (WS.DoSendText (JString "hi")) (sample_world None None)
              eq_refl) as (w' & Hrun & Hcalls & _).
  exists w'. split; [exact Hrun | exact Hcalls].
Defined.

Lemma operations_without_validation_witness :
  ∃ w',
    @WS.operation () sample_platform
      {| WS.data := (); WS.validator := Some strings_only |}
      WS.OpClose (sample_world None (Some strings_only))
    = (WS.Returns (), w')
    ∧ Bun.data (Bun.raw w')
      = Bun.data (Bun.raw (sample_world None (Some strings_only))).
Proof.
  destruct (@operations_without_validation () sample_platform
              {| WS.data := (); WS.validator := Some strings_only |}
              WS.OpClose (sample_world None (Some strings_only)))
    as (w' & events & Hrun & Hdata & _).
  - intros o. discriminate.
  - intros callback. discriminate.
  - exists w'. split; [exact Hrun | exact Hdata].
Defined.

Lemma deliver_in_order_witness :
  ∃ w',
    @Fluent.deliver naming_application
      [WS.OnOpen; WS.OnMessage (JString "hi"); WS.OnMessage JNull]
      (sample_world None None)
    = (WS.Returns (), w')
    ∧ Fluent.invoked (Bun.trace w')
      = [("onMessage", [Bun.ArgSocket; Bun.ArgValue (JString "hi")]);
         ("onMessage", [Bun.ArgSocket; Bun.ArgValue JNull])].
Proof.
  destruct (@deliver_in_order naming_application
              [WS.OnOpen; WS.OnMessage (JString "hi"); WS.OnMessage JNull]
              (sample_world None None))
    as (w' & Hrun & Hinvoked & _).
  - intros f args w0. eexists. split; [reflexivity|]. split; [done|].
    simpl. unfold Fluent.invoked. rewrite omap_app. simpl.
    apply app_nil_r.
  - exists w'. split; [exact Hrun | exact Hinvoked].
Defined.
